(** * Verification of the traffic-simulation scripts

    Shallow embedding of [src/main.py] (congestion-aware traffic update,
    shortest-path planner, vehicle controller) and of [src/trial1.py]
    (Dijkstra / Bellman-Ford front end), with the properties of the
    specification stated and proved over the embedding.

    Python floats are IEEE 754 binary64 numbers; they are modelled by
    Rocq's primitive floats, whose operations are specified by
    [FloatAxioms] in terms of [SpecFloat].  Python integers are [Z],
    node labels are strings, dictionaries compared with [==] are [gmap]s. *)

From stdpp Require Import base list strings gmap.
From Stdlib Require Import ZArith Lia Bool.
From Stdlib Require Import Floats.

#[local] Set Warnings "-inexact-float".

(** * Binary64 arithmetic as Python uses it *)
Module PyFloat.

#[local] Open Scope Z_scope.

(** ** Rounding in [SpecFloat], in terms of integer division *)

Lemma digits2_pos_log2 (p : positive) :
  Zpos (digits2_pos p) = Z.log2 (Zpos p) + 1.
Proof.
  assert (Hs : forall q, digits2_pos q = Pos.size q).
  { induction q as [q IH|q IH|]; simpl; now rewrite ?IH. }
  rewrite Hs. destruct p; simpl; lia.
Qed.

Lemma Zdigits2_le (m k : Z) : 0 < m -> 0 <= k -> (Zdigits2 m <= k <-> m < 2 ^ k).
Proof.
  intros Hm Hk. destruct m as [|p|p]; try lia. simpl Zdigits2.
  rewrite digits2_pos_log2, Z.log2_lt_pow2 by lia. lia.
Qed.

Lemma Zdigits2_ge (m k : Z) : 0 < m -> 0 < k -> (k <= Zdigits2 m <-> 2 ^ (k - 1) <= m).
Proof.
  intros Hm Hk. destruct m as [|p|p]; try lia. simpl Zdigits2.
  rewrite digits2_pos_log2, Z.log2_le_pow2 by lia. lia.
Qed.

Lemma shr_1_m (mrs : shr_record) :
  0 <= shr_m mrs -> shr_m (shr_1 mrs) = shr_m mrs / 2.
Proof.
  destruct mrs as [m r s]; cbn [shr_m]. intros Hm.
  destruct m as [|[p|p|]|p]; cbn [shr_1 shr_m]; try lia; try reflexivity.
  - apply Z.div_unique with 1; lia.
  - apply Z.div_unique with 0; lia.
Qed.

Lemma iter_pos_shr_1_m (p : positive) : forall mrs,
  0 <= shr_m mrs ->
  shr_m (iter_pos shr_1 p mrs) = shr_m mrs / 2 ^ Zpos p.
Proof.
  induction p as [p IH|p IH|]; intros mrs Hm; simpl iter_pos.
  - assert (H1 : 0 <= shr_m (shr_1 mrs)) by (rewrite shr_1_m by lia; apply Z.div_pos; lia).
    assert (H2 : 0 <= shr_m (iter_pos shr_1 p (shr_1 mrs)))
      by (rewrite IH by lia; apply Z.div_pos; [lia | apply Z.pow_pos_nonneg; lia]).
    rewrite IH, IH, shr_1_m by lia.
    rewrite !Z.div_div by (try apply Z.pow_pos_nonneg; lia).
    f_equal. change (Zpos p~1) with (1 + 2 * Zpos p).
    rewrite Z.pow_add_r, Z.pow_mul_r, Z.pow_2_r by lia.
    rewrite Z.pow_mul_l. change (2 ^ 1) with 2. lia.
  - assert (H2 : 0 <= shr_m (iter_pos shr_1 p mrs))
      by (rewrite IH by lia; apply Z.div_pos; [lia | apply Z.pow_pos_nonneg; lia]).
    rewrite IH, IH by lia.
    rewrite !Z.div_div by (try apply Z.pow_pos_nonneg; lia).
    f_equal. change (Zpos p~0) with (2 * Zpos p).
    rewrite Z.pow_mul_r, Z.pow_2_r by lia.
    rewrite Z.pow_mul_l. lia.
  - rewrite shr_1_m by lia. reflexivity.
Qed.

(** One normalisation stage of the rounding procedure: the mantissa is
    shifted right until the exponent reaches [fexp]. *)
Definition stage (m e : Z) : Z * Z :=
  let n := Z.max 0 (fexp prec emax (Zdigits2 m + e) - e) in (m / 2 ^ n, e + n).

Lemma shr_fexp_stage (m e : Z) (l : location) :
  0 <= m ->
  (shr_m (fst (shr_fexp prec emax m e l)), snd (shr_fexp prec emax m e l)) = stage m e.
Proof.
  intros Hm. unfold shr_fexp, stage, shr.
  assert (Hr : shr_m (shr_record_of_loc m l) = m) by (destruct l as [|[]]; reflexivity).
  destruct (fexp prec emax (Zdigits2 m + e) - e) as [|p|p] eqn:E.
  - simpl fst; simpl snd. rewrite Hr. simpl Z.max. rewrite Z.div_1_r. f_equal; lia.
  - simpl fst; simpl snd. rewrite iter_pos_shr_1_m by lia. rewrite Hr.
    rewrite Z.max_r by lia. reflexivity.
  - simpl fst; simpl snd. rewrite Hr. rewrite Z.max_l by lia. simpl. rewrite Z.div_1_r. f_equal; lia.
Qed.

Lemma round_nearest_even_bounds (m : Z) (l : location) :
  m <= round_nearest_even m l <= m + 1.
Proof. destruct l as [|[]]; simpl; try lia. destruct (Z.even m); lia. Qed.

(** The result of [binary_round_aux] on a positive mantissa, in terms of
    two [stage]s around a rounding step that adds at most one. *)
Lemma binary_round_aux_cases (sx : bool) (mx ex : Z) (lx : location) :
  0 <= mx ->
  exists m2 : Z,
    fst (stage mx ex) <= m2 <= fst (stage mx ex) + 1 /\
    binary_round_aux prec emax sx mx ex lx =
      match fst (stage m2 (snd (stage mx ex))) with
      | Z0 => S754_zero sx
      | Zpos m => if snd (stage m2 (snd (stage mx ex))) <=? emax - prec
                  then S754_finite sx m (snd (stage m2 (snd (stage mx ex))))
                  else S754_infinity sx
      | Zneg _ => S754_nan
      end.
Proof.
  intros Hm. unfold binary_round_aux.
  pose proof (shr_fexp_stage mx ex lx Hm) as H1.
  destruct (shr_fexp prec emax mx ex lx) as [mrs1 e1]. cbn [fst snd] in H1.
  destruct (stage mx ex) as [m1 e1'] eqn:E1. injection H1 as Hm1 He1. subst m1 e1'.
  cbn [fst snd].
  set (m2 := round_nearest_even (shr_m mrs1) (loc_of_shr_record mrs1)).
  exists m2.
  pose proof (round_nearest_even_bounds (shr_m mrs1) (loc_of_shr_record mrs1)) as Hb.
  fold m2 in Hb.
  assert (H0 : 0 <= shr_m mrs1).
  { change (shr_m mrs1) with (fst (shr_m mrs1, e1)). rewrite <- E1.
    unfold stage; cbn [fst]. apply Z.div_pos; [lia | apply Z.pow_pos_nonneg; lia]. }
  assert (Hm2 : 0 <= m2) by lia.
  pose proof (shr_fexp_stage m2 e1 loc_Exact Hm2) as H2.
  destruct (shr_fexp prec emax m2 e1 loc_Exact) as [mrs2 e2]. cbn [fst snd] in H2.
  split; [lia|].
  rewrite <- H2. cbn [fst snd]. reflexivity.
Qed.

Lemma fexp_eq (k : Z) : fexp prec emax k = Z.max (k - 53) (-1074).
Proof. reflexivity. Qed.

Lemma stage_eq (m e n : Z) :
  n = Z.max 0 (Z.max (Zdigits2 m + e - 53) (-1074) - e) ->
  stage m e = (m / 2 ^ n, e + n).
Proof. intros ->. unfold stage. rewrite fexp_eq. reflexivity. Qed.

Lemma bounded_inv (m : positive) (e : Z) :
  bounded prec emax m e = true ->
  Z.max (Zdigits2 (Zpos m) + e - 53) (-1074) = e /\ e <= 971.
Proof.
  unfold bounded, canonical_mantissa. rewrite fexp_eq.
  intros H. apply andb_prop in H as [H1 H2].
  apply Z.eqb_eq in H1. apply Z.leb_le in H2. simpl Zdigits2. unfold emax, prec in H2. lia.
Qed.

(** The shape of a product [(m, e) * (M, -53)] with [M] a 53-bit mantissa,
    that is of a canonical positive float by a float in [[0.5, 1)]: the
    result keeps the exponent [e] with the mantissa [m * M / 2^53] rounded,
    or it falls into the binade below, or it is rounded back up to the
    bottom of the binade of [e]. *)
Definition mul_form (r : spec_float) (m M : positive) (e : Z) : Prop :=
  r = S754_zero false \/
  exists m3 e3, r = S754_finite false m3 e3 /\
    ((e3 = e /\ Zpos m3 <= Zpos m * Zpos M / 2 ^ 53 + 1) \/
     (e3 = e - 1 /\ 2 ^ 52 <= Zpos m) \/
     (e3 = e /\ Zpos m3 = 2 ^ 52 /\ 2 ^ 52 <= Zpos m /\
      2 ^ 53 - 1 <= Zpos m * Zpos M / 2 ^ 52)).

Lemma SFmul_form (m M : positive) (e : Z) :
  bounded prec emax m e = true ->
  2 ^ 52 <= Zpos M < 2 ^ 53 ->
  mul_form (SFmul prec emax (S754_finite false m e) (S754_finite false M (-53))) m M e.
Proof.
  intros Hb HM. apply bounded_inv in Hb as [Hc He].
  cbn [SFmul xorb].
  set (P := Zpos (m * M)).
  assert (HP : P = Zpos m * Zpos M) by reflexivity.
  unfold mul_form. rewrite <- HP.
  set (d := Zdigits2 (Zpos m)) in *.
  assert (Hd1 : 1 <= d) by (unfold d; simpl; lia).
  assert (Hmd : 2 ^ (d - 1) <= Zpos m < 2 ^ d).
  { split; [apply Zdigits2_ge | apply Zdigits2_le]; unfold d; lia. }
  assert (Hd53 : d <= 53) by lia.
  assert (H2d : 0 < 2 ^ (d - 1)) by (apply Z.pow_pos_nonneg; lia).
  assert (HPpos : 0 < P) by (unfold P; lia).
  set (dP := Zdigits2 P).
  assert (HdP : d + 52 <= dP <= d + 53).
  { split.
    - apply Zdigits2_ge; [lia | lia |].
      replace (d + 52 - 1) with ((d - 1) + 52) by lia. rewrite Z.pow_add_r by lia.
      rewrite HP. apply Z.mul_le_mono_nonneg; lia.
    - apply Zdigits2_le; [lia | lia |].
      rewrite Z.pow_add_r by lia. rewrite HP.
      apply Z.mul_lt_mono_nonneg; lia. }
  destruct (binary_round_aux_cases false P (-53 + e)%Z loc_Exact ltac:(lia))
    as (m2 & Hm2 & Hres).
  replace (e + -53) with (-53 + e) by lia. rewrite Hres. clear Hres.
  set (n1 := Z.max 0 (Z.max (dP + (-53 + e) - 53) (-1074) - (-53 + e))).
  rewrite (stage_eq P (-53 + e) n1 eq_refl) in *. cbn [fst snd] in *.
  assert (Hn1 : n1 = 53 \/ (n1 = 52 /\ d = 53 /\ dP = 105 /\ -1074 < e)) by lia.
  assert (HPlt : P < Zpos m * 2 ^ 53) by (rewrite HP; apply Z.mul_lt_mono_pos_l; lia).
  destruct Hn1 as [Hn1 | (Hn1 & Hd & HdP' & He')].
  - (* the product keeps the exponent of the left operand *)
    rewrite Hn1 in *.
    assert (Hm1 : P / 2 ^ 53 < Zpos m) by (apply Z.div_lt_upper_bound; lia).
    assert (Hm1' : 0 <= P / 2 ^ 53) by (apply Z.div_pos; lia).
    assert (Hdm2 : Zdigits2 m2 <= 53).
    { destruct (Z.eq_dec m2 0) as [->|]; [simpl; lia|].
      apply Zdigits2_le; try lia. apply Z.le_lt_trans with (Zpos m); [lia|].
      apply Z.lt_le_trans with (2 ^ d); [lia|]. apply Z.pow_le_mono_r; lia. }
    rewrite (stage_eq m2 (-53 + e + 53) 0) by lia. cbn [fst snd].
    rewrite Z.pow_0_r, Z.div_1_r.
    destruct m2 as [|p2|p2]; [left; reflexivity | | lia].
    right. replace (-53 + e + 53 + 0) with e by lia.
    replace (e <=? emax - prec) with true by (symmetry; apply Z.leb_le; unfold emax, prec; lia).
    exists p2, e. split; [reflexivity | left; lia].
  - (* the product drops to the next lower binade *)
    rewrite Hn1 in *.
    assert (HP105 : P < 2 ^ 105) by (apply Zdigits2_le; lia).
    assert (HP104 : 2 ^ 104 <= P) by (apply (Zdigits2_ge P 105); lia).
    assert (Hm1 : P / 2 ^ 52 < 2 ^ 53) by (apply Z.div_lt_upper_bound; lia).
    assert (Hm1' : 2 ^ 52 <= P / 2 ^ 52) by (apply Z.div_le_lower_bound; lia).
    rewrite Hd in Hmd. change (53 - 1) with 52 in Hmd.
    destruct (Z.eq_dec m2 (2 ^ 53)) as [E|NE].
    + rewrite (stage_eq m2 (-53 + e + 52) 1) by (rewrite E; simpl Zdigits2; lia).
      cbn [fst snd]. rewrite E. change (2 ^ 53 / 2 ^ 1) with (Zpos (2 ^ 52)).
      right. replace (-53 + e + 52 + 1) with e by lia.
      replace (e <=? emax - prec) with true by (symmetry; apply Z.leb_le; unfold emax, prec; lia).
      exists (2 ^ 52)%positive, e. split; [reflexivity | right; right].
      change (Zpos (2 ^ 52)) with (2 ^ 52). lia.
    + assert (Hdm2 : Zdigits2 m2 <= 53) by (apply Zdigits2_le; lia).
      rewrite (stage_eq m2 (-53 + e + 52) 0) by lia. cbn [fst snd].
      rewrite Z.pow_0_r, Z.div_1_r.
      destruct m2 as [|p2|p2]; [lia | | lia].
      right. replace (-53 + e + 52 + 0) with (e - 1) by lia.
      replace (e - 1 <=? emax - prec) with true by (symmetry; apply Z.leb_le; unfold emax, prec; lia).
      exists p2, (e - 1). split; [reflexivity | right; left; lia].
Qed.

(** Order on the results: [r] is a non-negative float not above (resp.
    strictly below) the positive finite float [(m, e)]. *)
Definition SFle_pos (r : spec_float) (m : positive) (e : Z) : Prop :=
  r = S754_zero false \/
  exists m3 e3, r = S754_finite false m3 e3 /\
                (e3 < e \/ (e3 = e /\ Zpos m3 <= Zpos m)).

Definition SFlt_pos (r : spec_float) (m : positive) (e : Z) : Prop :=
  r = S754_zero false \/
  exists m3 e3, r = S754_finite false m3 e3 /\
                (e3 < e \/ (e3 = e /\ Zpos m3 < Zpos m)).

Lemma SFmul_below_one (m M : positive) (e : Z) :
  bounded prec emax m e = true ->
  2 ^ 52 <= Zpos M < 2 ^ 53 ->
  SFle_pos (SFmul prec emax (S754_finite false m e) (S754_finite false M (-53))) m e.
Proof.
  intros Hb HM. destruct (SFmul_form m M e Hb HM) as [H|(m3 & e3 & H & Hc)]; [left; exact H|].
  right. exists m3, e3. split; [exact H|].
  assert (Zpos m * Zpos M / 2 ^ 53 < Zpos m).
  { apply Z.div_lt_upper_bound; [lia|]. rewrite Z.mul_comm. apply Z.mul_lt_mono_pos_r; lia. }
  lia.
Qed.


Lemma SFlt_le_pos r m e : SFlt_pos r m e -> SFle_pos r m e.
Proof. intros [H|(m3 & e3 & H & Hc)]; [left; exact H|right; exists m3, e3; split; [exact H|lia]]. Qed.

(** ** Order facts on [spec_float] *)

Ltac cmp_cases :=
  repeat match goal with
  | |- context [Z.compare ?a ?b] => destruct (Z.compare_spec a b)
  | H : context [Z.compare ?a ?b] |- _ => destruct (Z.compare_spec a b)
  | |- context [Pos.compare_cont Eq ?a ?b] =>
      change (Pos.compare_cont Eq a b) with (Pos.compare a b);
      destruct (Pos.compare_spec a b)
  | H : context [Pos.compare_cont Eq ?a ?b] |- _ =>
      change (Pos.compare_cont Eq a b) with (Pos.compare a b) in H;
      destruct (Pos.compare_spec a b)
  end.

Ltac sf_order :=
  unfold SFleb, SFltb, SFeqb, SFcompare in *;
  cmp_cases; simpl in *; subst; try discriminate; try reflexivity; try lia.

Lemma SFleb_trans (a b c : spec_float) :
  SFleb a b = true -> SFleb b c = true -> SFleb a c = true.
Proof.
  destruct a as [[]|[]| |[] ma ea], b as [[]|[]| |[] mb eb], c as [[]|[]| |[] mc ec];
    try (intros; reflexivity); try (intros; discriminate);
    intros H1 H2; sf_order.
Qed.

Lemma SFltb_trans (a b c : spec_float) :
  SFltb a b = true -> SFltb b c = true -> SFltb a c = true.
Proof.
  destruct a as [[]|[]| |[] ma ea], b as [[]|[]| |[] mb eb], c as [[]|[]| |[] mc ec];
    try (intros; reflexivity); try (intros; discriminate);
    intros H1 H2; sf_order.
Qed.

Lemma SFltb_irrefl (a : spec_float) : SFltb a a = false.
Proof.
  destruct a as [[]|[]| |[] m e]; try reflexivity;
    unfold SFltb, SFcompare; rewrite Z.compare_refl;
    change (Pos.compare_cont Eq m m) with (Pos.compare m m);
    now rewrite Pos.compare_refl.
Qed.

Lemma SFltb_false_leb (a b : spec_float) :
  a <> S754_nan -> b <> S754_nan -> SFltb a b = false -> SFleb b a = true.
Proof.
  destruct a as [[]|[]| |[] ma ea], b as [[]|[]| |[] mb eb];
    try (intros; reflexivity); try (intros; discriminate); try congruence;
    intros _ _ H1; sf_order.
Qed.

Lemma SFltb_leb (a b : spec_float) : SFltb a b = true -> SFleb a b = true.
Proof.
  destruct a as [[]|[]| |[] ma ea], b as [[]|[]| |[] mb eb];
    try (intros; reflexivity); try (intros; discriminate);
    intros H1; sf_order.
Qed.

Lemma SFleb_ltb_false (a b : spec_float) : SFleb a b = true -> SFltb b a = false.
Proof.
  destruct a as [[]|[]| |[] ma ea], b as [[]|[]| |[] mb eb];
    try (intros; reflexivity); try (intros; discriminate);
    intros H1; sf_order.
Qed.

(** Non-negative values: zeros of either sign, positive finite numbers and
    [+infinity]; [nan] is excluded. *)
Definition SFnonneg (s : spec_float) : Prop :=
  match s with
  | S754_zero _ | S754_infinity false | S754_finite false _ _ => True
  | _ => False
  end.

(** The values a sum started at [+0.0] can take. *)
Definition SFplus (s : spec_float) : Prop :=
  match s with
  | S754_zero false | S754_infinity false | S754_finite false _ _ => True
  | _ => False
  end.

Lemma SFplus_nonneg s : SFplus s -> SFnonneg s.
Proof. destruct s as [[]|[]| |[] m e]; simpl; tauto. Qed.

Lemma SFnonneg_leb (s : spec_float) : SFleb (S754_zero false) s = true <-> SFnonneg s.
Proof. destruct s as [[]|[]| |[] m e]; simpl; intuition discriminate. Qed.

Lemma SFleb_antisym_plus (a b : spec_float) :
  SFplus a -> SFplus b -> SFleb a b = true -> SFleb b a = true -> a = b.
Proof.
  destruct a as [[]|[]| |[] ma ea], b as [[]|[]| |[] mb eb]; simpl;
    try tauto; try reflexivity; intros _ _ H1 H2; try discriminate.
  unfold SFleb, SFcompare in *.
  destruct (Z.compare_spec ea eb), (Z.compare_spec eb ea); try lia; try discriminate.
  subst. change (Pos.compare_cont Eq ma mb) with (Pos.compare ma mb) in H1.
  change (Pos.compare_cont Eq mb ma) with (Pos.compare mb ma) in H2.
  destruct (Pos.compare_spec ma mb), (Pos.compare_spec mb ma); try lia; try discriminate.
  subst. reflexivity.
Qed.

Lemma binary_round_aux_plus (mx ex : Z) (lx : location) :
  0 <= mx -> SFplus (binary_round_aux prec emax false mx ex lx).
Proof.
  intros Hm. destruct (binary_round_aux_cases false mx ex lx Hm) as (m2 & Hm2 & ->).
  assert (H1 : 0 <= fst (stage mx ex)).
  { unfold stage; cbn [fst]. apply Z.div_pos; [lia | apply Z.pow_pos_nonneg; lia]. }
  assert (H2 : 0 <= fst (stage m2 (snd (stage mx ex)))).
  { unfold stage at 1; cbn [fst]. apply Z.div_pos; [lia | apply Z.pow_pos_nonneg; lia]. }
  destruct (fst (stage m2 (snd (stage mx ex)))) as [|p|p]; simpl; try exact I; [|lia].
  destruct (_ <=? _); exact I.
Qed.

Lemma SFadd_plus (a b : spec_float) :
  SFplus a -> SFnonneg b -> SFplus (SFadd prec emax a b).
Proof.
  destruct a as [[]|[]| |[] ma ea], b as [[]|[]| |[] mb eb]; simpl; try tauto.
  intros _ _. unfold binary_round. destruct (shl_align _ _ _) as [mz ez].
  apply binary_round_aux_plus. lia.
Qed.

Lemma SFadd_nonneg (a b : spec_float) :
  SFnonneg a -> SFnonneg b -> SFnonneg (SFadd prec emax a b).
Proof.
  destruct a as [[]|[]| |[] ma ea], b as [[]|[]| |[] mb eb]; simpl; try tauto.
  intros _ _. unfold binary_round. destruct (shl_align _ _ _) as [mz ez].
  apply SFplus_nonneg, binary_round_aux_plus. lia.
Qed.

Lemma SFle_pos_leb (r : spec_float) (m : positive) (e : Z) :
  SFle_pos r m e -> SFleb r (S754_finite false m e) = true.
Proof.
  intros [->|(m3 & e3 & -> & H)]; [reflexivity|].
  unfold SFleb, SFcompare. change (Pos.compare_cont Eq m3 m) with (Pos.compare m3 m).
  destruct (Z.compare_spec e3 e); try lia; try reflexivity.
  destruct (Pos.compare_spec m3 m); try lia; reflexivity.
Qed.

Lemma SFle_pos_plus (r : spec_float) (m : positive) (e : Z) : SFle_pos r m e -> SFplus r.
Proof. intros [->|(m3 & e3 & -> & H)]; exact I. Qed.

(** ** Python's float operations *)
#[local] Open Scope float_scope.

Definition pymin (a b : float) : float := if b <? a then b else a.
Definition pymax (a b : float) : float := if a <? b then b else a.

Definition fnonneg (x : float) : Prop := (0 <=? x) = true.
Definition in_unit (x : float) : Prop := (0 <=? x) = true /\ (x <=? 1) = true.
Definition fplus (x : float) : Prop := SFplus (Prim2SF x).

Lemma fnonneg_spec (x : float) : fnonneg x <-> SFnonneg (Prim2SF x).
Proof. unfold fnonneg. rewrite leb_spec. apply SFnonneg_leb. Qed.

Lemma fplus_nonneg (x : float) : fplus x -> fnonneg x.
Proof. intros H. apply fnonneg_spec, SFplus_nonneg, H. Qed.

Lemma add_nonneg (x y : float) : fnonneg x -> fnonneg y -> fnonneg (x + y).
Proof.
  rewrite !fnonneg_spec, add_spec. apply SFadd_nonneg.
Qed.

Lemma add_plus (x y : float) : fplus x -> fnonneg y -> fplus (x + y).
Proof.
  unfold fplus. rewrite fnonneg_spec, add_spec. apply SFadd_plus.
Qed.

Lemma fnonneg_not_nan (x : float) : fnonneg x -> Prim2SF x <> S754_nan.
Proof. rewrite fnonneg_spec. intros H E. rewrite E in H. exact H. Qed.

Lemma leb_trans (x y z : float) : (x <=? y) = true -> (y <=? z) = true -> (x <=? z) = true.
Proof. rewrite !leb_spec. apply SFleb_trans. Qed.

Lemma ltb_trans (x y z : float) : (x <? y) = true -> (y <? z) = true -> (x <? z) = true.
Proof. rewrite !ltb_spec. apply SFltb_trans. Qed.

Lemma ltb_false_leb (x y : float) :
  fnonneg x -> fnonneg y -> (x <? y) = false -> (y <=? x) = true.
Proof.
  intros Hx Hy. rewrite ltb_spec, leb_spec.
  apply SFltb_false_leb; now apply fnonneg_not_nan.
Qed.

Lemma ltb_irrefl (x : float) : (x <? x) = false.
Proof. rewrite ltb_spec. apply SFltb_irrefl. Qed.

Lemma leb_ltb_false (x y : float) : (x <=? y) = true -> (y <? x) = false.
Proof. rewrite ltb_spec, leb_spec. apply SFleb_ltb_false. Qed.

Lemma pymin_in_unit (x : float) : fnonneg x -> in_unit (pymin x 1).
Proof.
  intros Hx. unfold pymin. destruct (1 <? x) eqn:E.
  - split; reflexivity.
  - split; [exact Hx|]. apply ltb_false_leb; [reflexivity | exact Hx | exact E].
Qed.

(** [x * 0.95] is non-negative and not above [x], for every non-negative [x]. *)
Lemma mul_095_bounds (x : float) :
  fnonneg x -> fnonneg (x * 0.95) /\ (x * 0.95 <=? x) = true.
Proof.
  intros Hx. pose proof (Prim2SF_valid x) as Hv.
  rewrite fnonneg_spec in *. rewrite leb_spec, mul_spec.
  change (Prim2SF 0.95) with (S754_finite false 8556839292003942 (-53)).
  destruct (Prim2SF x) as [s|[]| |[] m e]; try contradiction.
  - destruct s; split; reflexivity.
  - split; reflexivity.
  - pose proof (SFmul_below_one m 8556839292003942 e Hv ltac:(lia)) as H.
    split; [apply SFplus_nonneg; eapply SFle_pos_plus; exact H | apply SFle_pos_leb, H].
Qed.

Lemma pymax_0_bounds (x : float) :
  fnonneg x -> fnonneg (pymax (x * 0.95) 0) /\ (pymax (x * 0.95) 0 <=? x) = true.
Proof.
  intros Hx. destruct (mul_095_bounds x Hx) as [H1 H2].
  unfold pymax. rewrite (leb_ltb_false _ _ H1). split; assumption.
Qed.


Lemma decay_in_unit (x : float) : in_unit x -> in_unit (pymax (x * 0.95) 0).
Proof.
  intros [H0 H1]. destruct (pymax_0_bounds x H0) as [Ha Hb].
  split; [exact Ha | eapply leb_trans; eassumption].
Qed.









(** Two sums started at [+0.0] neither of which is below the other are the
    same float. *)
Lemma plus_antisym (x y : float) :
  fplus x -> fplus y -> (x <? y) = false -> (y <? x) = false -> x = y.
Proof.
  intros Hx Hy Hxy Hyx. apply Prim2SF_inj.
  apply SFleb_antisym_plus; try assumption; rewrite <- leb_spec;
    apply ltb_false_leb; auto using fplus_nonneg.
Qed.

(** ** Repeated decay *)

(** The congestion decay of one traffic update, [max(c * 0.95, 0.0)]. *)
Definition decay (c : float) : float := pymax (c * 0.95) 0.






(** The sequence need not reach [0.0] itself: at [9 * 2^-1074] the product
    with 0.95 rounds back to the same subnormal number. *)
Example decay_stalls : decay 0x9p-1074 = 0x9p-1074 /\ (0 <? 0x9p-1074) = true.
Proof. split; reflexivity. Qed.


End PyFloat.

(** * Vocabulary shared by the two scripts *)

(** Node labels are Python strings. *)
Abbreviation node := string.

(** The edges of a [networkx.DiGraph] as [G.edges()] lists them: node by
    node, in the order the nodes were added, and for each node in the order
    its out-edges were added. *)
Definition edges_by_source {W : Type} (ns : list node) (es : list (node * node * W))
    : list (node * node * W) :=
  ns ≫= fun u => filter (fun e : node * node * W => e.1.1 = u) es.

(** ** The [random] module

    The value of the [k]-th coming call of [random.uniform(0.9, 1.2)] is
    [r k]; a call returns [r 0] and leaves the shifted sequence.  Python
    documents [a <= uniform(a, b) <= b]. *)
Definition Rng : Type := nat -> float.

Definition uniform (r : Rng) : float * Rng := (r 0%nat, fun k => r (S k)).

Definition uniform_range (r : Rng) : Prop :=
  forall k : nat, (0.9 <=? r k)%float = true /\ (r k <=? 1.2)%float = true.

(** The conversion of a Python integer in [int * float]: the nearest
    binary64 number (integers beyond the binary64 range, for which Python
    raises [OverflowError], do not occur: base weights are between 5 and
    15). *)
Definition float_of_int (z : Z) : float :=
  SF2Prim (binary_normalize prec emax z 0 false).

(** The built-in [round(x, 2)] on a float: the exact value of [x] is
    rounded to two decimals, ties to the even neighbour, and the nearest
    float to that decimal is returned.  The theorems below hold for every
    rounding function; this one serves to run the model. *)
Definition round_half_even (a b : Z) : Z :=
  let q := (a / b)%Z in
  match (2 * (a mod b) ?= b)%Z with
  | Lt => q
  | Gt => (q + 1)%Z
  | Eq => if Z.even q then q else (q + 1)%Z
  end.

Definition py_round2 (x : float) : float :=
  match Prim2SF x with
  | S754_finite s m e =>
      let n := if (0 <=? e)%Z then (Zpos m * 2 ^ e * 100)%Z
               else round_half_even (Zpos m * 100) (2 ^ (- e)) in
      match n with
      | Zpos p => SF2Prim (SFdiv prec emax (S754_finite s p 0) (S754_finite false 100 0))
      | _ => SF2Prim (S754_zero s)
      end
  | _ => x
  end.

(** ** Python exceptions and results *)

Inductive PyExc : Type :=
  | NodeNotFound (msg : string)
  | NetworkXNoPath (msg : string)
  | NetworkXUnbounded (msg : string)
  | ValueError (msg : string).

(** [str(e)]. *)
Definition exc_message (e : PyExc) : string :=
  match e with
  | NodeNotFound msg | NetworkXNoPath msg | NetworkXUnbounded msg | ValueError msg => msg
  end.

Inductive PyResult (A : Type) : Type :=
  | Ok (a : A)
  | Raise (e : PyExc).
Arguments Ok {A} a.
Arguments Raise {A} e.

(** ** Arithmetic on edge weights: Python floats in [main.py], Python
    integers in [trial1.py] *)

Class Weight (W : Type) : Type := {
  wzero : W;
  wadd : W -> W -> W;
  wltb : W -> W -> bool;
  (** the weights shortest-path algorithms are meant for *)
  wvalid : W -> Prop
}.

Class WeightOrder (W : Type) `{Weight W} : Prop := {
  wltb_irrefl : forall x : W, wltb x x = false;
  wltb_trans : forall x y z : W, wltb x y = true -> wltb y z = true -> wltb x z = true
}.

(** Weights on which two values are equal as soon as neither is below the
    other (Python integers, not floats). *)
Class WeightLinear (W : Type) `{Weight W} : Prop := {
  wltb_linear : forall x y : W, wltb x y = false -> wltb y x = false -> x = y
}.

#[export] Instance float_weight : Weight float :=
  {| wzero := 0%float; wadd := PrimFloat.add; wltb := PrimFloat.ltb; wvalid := PyFloat.fnonneg |}.

#[export] Instance Z_weight : Weight Z :=
  {| wzero := 0%Z; wadd := Z.add; wltb := Z.ltb; wvalid := fun w => (0 <= w)%Z |}.

#[export] Instance float_weight_order : WeightOrder float.
Proof. split; [exact PyFloat.ltb_irrefl | exact PyFloat.ltb_trans]. Qed.

#[export] Instance Z_weight_order : WeightOrder Z.
Proof.
  split; cbn.
  - apply Z.ltb_irrefl.
  - intros x y z Hxy Hyz. apply Z.ltb_lt in Hxy, Hyz. apply Z.ltb_lt. lia.
Qed.

#[export] Instance Z_weight_linear : WeightLinear Z.
Proof.
  split; cbn. intros x y Hxy Hyx. apply Z.ltb_ge in Hxy, Hyx. lia.
Qed.

(** * The part of [networkx] the scripts rely on *)
Module Nx.

(** What the shortest-path functions read of a graph when called with
    [weight='weight']: the nodes and, for each edge, its end points and the
    value of its ['weight'] attribute. *)
Record WDiGraph (W : Type) : Type := mkWDiGraph {
  wnodes : list node;
  wedges : list (node * node * W)
}.
Arguments mkWDiGraph {W} _ _.
Arguments wnodes {W} _.
Arguments wedges {W} _.

Section Paths.
Context {W : Type} `{Weight W}.
Variable G : WDiGraph W.

(** [G[u][v]['weight']]. *)
Definition edge_weight (u v : node) : option W :=
  snd <$> find (fun e : node * node * W => bool_decide (e.1 = (u, v))) (wedges G).

(** [p] lists the nodes of a directed path from [s] to [t]. *)
Inductive is_path : node -> node -> list node -> Prop :=
  | is_path_one (s : node) : is_path s s [s]
  | is_path_step (s u t : node) (p : list node) (w : W) :
      edge_weight s u = Some w -> is_path u t p -> is_path s t (s :: p).

Definition reachable (s t : node) : Prop := exists p : list node, is_path s t p.

(** The length of a path as the algorithms accumulate it: from the
    source on, [dist + weight] edge by edge. *)
Fixpoint cost_from (acc : W) (p : list node) : W :=
  match p with
  | u :: (v :: _) as p' => cost_from (wadd acc (default wzero (edge_weight u v))) p'
  | _ => acc
  end.

Definition path_cost (p : list node) : W := cost_from wzero p.

Definition well_weighted : Prop :=
  forall e : node * node * W, e ∈ wedges G -> wvalid e.2.

(** [p] is a simple path from [s] to [t] that no simple path from [s] to
    [t] undercuts. *)
Definition shortest_path (s t : node) (p : list node) : Prop :=
  is_path s t p /\ NoDup p /\
  forall q : list node, is_path s t q -> NoDup q -> wltb (path_cost q) (path_cost p) = false.

(** [d] is the length of a shortest simple path from [s] to [t]. *)
Definition shortest_dist (s t : node) (d : W) : Prop :=
  exists p : list node, shortest_path s t p /\ path_cost p = d.

(** *** A reference implementation by exhaustive search *)

Definition predecessors (u : node) : list node :=
  omap (fun e : node * node * W => if bool_decide (e.1.2 = u) then Some e.1.1 else None)
       (wedges G).

(** The simple paths that end in [t] and have at most [n] edges. *)
Fixpoint paths_to (n : nat) (t : node) : list (list node) :=
  match n with
  | O => [[t]]
  | S n' =>
      [t] :: (paths_to n' t ≫= fun p : list node =>
                match p with
                | u :: _ => (fun s => s :: p) <$> filter (fun s => s ∉ p) (predecessors u)
                | [] => []
                end)
  end.

(** The first of the cheapest candidates. *)
Definition cheapest (cands : list (list node)) : option (list node) :=
  foldl (fun best p =>
           match best with
           | None => Some p
           | Some b => if wltb (path_cost p) (path_cost b) then Some p else Some b
           end) None cands.

Definition simple_paths (s t : node) : list (list node) :=
  filter (fun p => head p = Some s) (paths_to (length (wedges G)) t).

Definition search (s t : node) : option (list node) := cheapest (simple_paths s t).

(** *** The reference implementation finds the shortest simple paths *)

Lemma edge_weight_elem (u v : node) (w : W) :
  edge_weight u v = Some w -> (u, v, w) ∈ wedges G.
Proof.
  unfold edge_weight. destruct (find _ _) as [[[u' v'] w']|] eqn:E; [|discriminate].
  intros [= <-]. apply find_some in E as [Hin Hk].
  apply bool_decide_eq_true in Hk. cbn in Hk. injection Hk as -> ->.
  now apply list_elem_of_In.
Qed.

Lemma elem_edge_weight (u v : node) (w : W) :
  (u, v, w) ∈ wedges G -> exists w' : W, edge_weight u v = Some w'.
Proof.
  intros Hin. unfold edge_weight.
  destruct (find _ _) as [e|] eqn:E; [exists e.2; reflexivity|].
  apply list_elem_of_In in Hin.
  pose proof (find_none _ _ E _ Hin) as Hf. cbn in Hf.
  now rewrite bool_decide_eq_true_2 in Hf.
Qed.

Lemma elem_of_predecessors (s u : node) :
  s ∈ predecessors u <-> exists w : W, edge_weight s u = Some w.
Proof.
  unfold predecessors. rewrite list_elem_of_omap. split.
  - intros ([[s' u'] w] & Hin & Hf). cbn in Hf.
    destruct (bool_decide_reflect (u' = u)) as [->|]; [|discriminate].
    injection Hf as ->. eapply elem_edge_weight, Hin.
  - intros [w Hw]. exists (s, u, w). split; [now apply edge_weight_elem|].
    cbn. now rewrite bool_decide_eq_true_2.
Qed.

Lemma is_path_head (s t : node) (p : list node) : is_path s t p -> head p = Some s.
Proof. now destruct 1. Qed.

Lemma paths_to_sound (n : nat) (t : node) : forall p : list node,
  p ∈ paths_to n t -> exists s : node, is_path s t p /\ NoDup p.
Proof.
  assert (H1 : exists s : node, is_path s t [t] /\ NoDup [t]).
  { exists t. split; [constructor|]. apply NoDup_singleton. }
  induction n as [|n IH]; intros p Hp; cbn [paths_to] in Hp.
  - apply list_elem_of_singleton in Hp as ->. exact H1.
  - apply elem_of_cons in Hp as [->|Hp]; [exact H1|].
    apply list_elem_of_bind in Hp as (q & Hp & Hq).
    destruct (IH q Hq) as (u & Hpath & Hnd).
    destruct q as [|u' q]; [now apply elem_of_nil in Hp|].
    apply list_elem_of_fmap in Hp as (s & -> & Hs).
    apply list_elem_of_filter in Hs as [Hnin Hs].
    apply elem_of_predecessors in Hs as [w Hw].
    pose proof (is_path_head _ _ _ Hpath) as Hh. cbn in Hh. injection Hh as ->.
    exists s. split; [econstructor; eassumption|].
    apply NoDup_cons. auto.
Qed.

Lemma paths_to_complete (s t : node) (p : list node) :
  is_path s t p -> forall n : nat, NoDup p -> (length p <= S n)%nat -> p ∈ paths_to n t.
Proof.
  induction 1 as [s|s u t p w Hw Hp IH]; intros n Hnd Hlen.
  - destruct n; cbn; apply elem_of_cons; auto.
  - destruct n as [|n]; cbn in Hlen.
    { destruct Hp; cbn in Hlen; lia. }
    apply NoDup_cons in Hnd as [Hnin Hnd].
    cbn [paths_to]. apply elem_of_cons. right.
    apply list_elem_of_bind. exists p. split; [|apply IH; [exact Hnd | lia]].
    pose proof (is_path_head _ _ _ Hp) as Hh.
    destruct p as [|u' p]; [discriminate|]. cbn in Hh. injection Hh as ->.
    apply list_elem_of_fmap. exists s. split; [reflexivity|].
    apply list_elem_of_filter. split; [exact Hnin|].
    apply elem_of_predecessors. eauto.
Qed.

(** Every node of a path after the first is the target of an edge. *)
Lemma is_path_tail_targets (s t : node) (p : list node) :
  is_path s t p ->
  forall v : node, v ∈ tail p -> v ∈ (fun e : node * node * W => e.1.2) <$> wedges G.
Proof.
  induction 1 as [s|s u t p w Hw Hp IH]; intros v Hv; cbn in Hv.
  - now apply elem_of_nil in Hv.
  - pose proof (is_path_head _ _ _ Hp) as Hh.
    destruct p as [|u' p]; [discriminate|]. cbn in Hh. injection Hh as ->.
    apply elem_of_cons in Hv as [->|Hv].
    + apply list_elem_of_fmap. exists (s, u, w). split; [reflexivity|].
      now apply edge_weight_elem.
    + apply IH. exact Hv.
Qed.

Lemma simple_path_length (s t : node) (p : list node) :
  is_path s t p -> NoDup p -> (length p <= S (length (wedges G)))%nat.
Proof.
  intros Hp Hnd.
  assert (Ht : (length (tail p) <= length (wedges G))%nat).
  { rewrite <- (length_fmap (fun e : node * node * W => e.1.2) (wedges G)).
    apply submseteq_length, NoDup_submseteq.
    - destruct p as [|x p]; [constructor|]. now apply NoDup_cons in Hnd as [_ Hnd].
    - apply (is_path_tail_targets s t), Hp. }
  destruct p; cbn in *; lia.
Qed.

Lemma elem_of_simple_paths (s t : node) (p : list node) :
  p ∈ simple_paths s t <-> is_path s t p /\ NoDup p.
Proof.
  unfold simple_paths. rewrite list_elem_of_filter. split.
  - intros [Hh Hp]. destruct (paths_to_sound _ _ _ Hp) as (s' & Hpath & Hnd).
    rewrite (is_path_head _ _ _ Hpath) in Hh. injection Hh as ->. auto.
  - intros [Hp Hnd]. split; [eapply is_path_head, Hp|].
    eapply paths_to_complete; eauto using simple_path_length.
Qed.

(** Cutting the loops out of a path. *)
Lemma is_path_suffix (u t : node) (p : list node) :
  is_path u t p -> forall s : node, s ∈ p ->
  exists q : list node, is_path s t q /\ q `suffix_of` p.
Proof.
  induction 1 as [u|u v t p w Hw Hp IH]; intros s Hs.
  - apply list_elem_of_singleton in Hs as ->. exists [u]. split; [constructor|done].
  - destruct (decide (s = u)) as [->|Hne].
    + exists (u :: p). split; [econstructor; eassumption|done].
    + apply elem_of_cons in Hs as [?|Hs]; [done|].
      destruct (IH s Hs) as (q & Hq & Hsuf). exists q. split; [exact Hq|].
      now apply suffix_cons_r.
Qed.

Lemma is_path_simple (s t : node) (p : list node) :
  is_path s t p -> exists q : list node, is_path s t q /\ NoDup q.
Proof.
  induction 1 as [s|s u t p w Hw Hp (q & Hq & Hnd)].
  - exists [s]. split; [constructor | apply NoDup_singleton].
  - destruct (decide (s ∈ q)) as [Hin|Hnin].
    + destruct (is_path_suffix _ _ _ Hq s Hin) as (q' & Hq' & Hsuf).
      exists q'. split; [exact Hq'|].
      destruct Hsuf as [k ->]. now apply NoDup_app in Hnd as (_ & _ & Hnd).
    + exists (s :: q). split; [econstructor; eassumption|].
      apply NoDup_cons. auto.
Qed.

Section Cheapest.
Context `{!WeightOrder W}.

Lemma cheapest_foldl (cands : list (list node)) : forall (seen : list (list node))
    (best : option (list node)),
  match best with
  | None => seen = []
  | Some b => b ∈ seen /\
              forall q, q ∈ seen -> wltb (path_cost q) (path_cost b) = false
  end ->
  match foldl (fun best p =>
                 match best with
                 | None => Some p
                 | Some b => if wltb (path_cost p) (path_cost b) then Some p else Some b
                 end) best cands with
  | None => seen ++ cands = []
  | Some b => b ∈ seen ++ cands /\
              forall q, q ∈ seen ++ cands -> wltb (path_cost q) (path_cost b) = false
  end.
Proof.
  induction cands as [|p cands IH]; intros seen best Hinv; cbn [foldl].
  - rewrite app_nil_r. exact Hinv.
  - replace (seen ++ p :: cands) with ((seen ++ [p]) ++ cands) by now rewrite <- app_assoc.
    apply IH. destruct best as [b|].
    + destruct Hinv as [Hb Hmin]. destruct (wltb (path_cost p) (path_cost b)) eqn:E.
      * split; [apply elem_of_app; right; now apply list_elem_of_singleton|].
        intros q Hq. apply elem_of_app in Hq as [Hq|Hq].
        -- destruct (wltb (path_cost q) (path_cost p)) eqn:E'; [|reflexivity].
           rewrite <- (Hmin q Hq). symmetry. eapply wltb_trans; eassumption.
        -- apply list_elem_of_singleton in Hq as ->. apply wltb_irrefl.
      * split; [apply elem_of_app; now left|].
        intros q Hq. apply elem_of_app in Hq as [Hq|Hq]; [now apply Hmin|].
        now apply list_elem_of_singleton in Hq as ->.
    + subst seen. split; [now apply list_elem_of_singleton|].
      intros q Hq. apply list_elem_of_singleton in Hq as ->. apply wltb_irrefl.
Qed.

Lemma cheapest_spec (cands : list (list node)) :
  match cheapest cands with
  | None => cands = []
  | Some b => b ∈ cands /\ forall q, q ∈ cands -> wltb (path_cost q) (path_cost b) = false
  end.
Proof. apply (cheapest_foldl cands [] None). reflexivity. Qed.

Lemma search_Some (s t : node) (p : list node) :
  search s t = Some p -> shortest_path s t p.
Proof.
  unfold search. intros E. pose proof (cheapest_spec (simple_paths s t)) as Hc.
  rewrite E in Hc. destruct Hc as [Hin Hmin].
  apply elem_of_simple_paths in Hin as [Hp Hnd].
  split; [exact Hp|]. split; [exact Hnd|].
  intros q Hq Hqnd. apply Hmin, elem_of_simple_paths. auto.
Qed.

Lemma search_None (s t : node) : search s t = None -> ~ reachable s t.
Proof.
  unfold search. intros E [p Hp]. pose proof (cheapest_spec (simple_paths s t)) as Hc.
  rewrite E in Hc. destruct (is_path_simple _ _ _ Hp) as (q & Hq & Hnd).
  assert (Hin : q ∈ simple_paths s t) by (apply elem_of_simple_paths; auto).
  rewrite Hc in Hin. now apply elem_of_nil in Hin.
Qed.

Lemma search_reachable (s t : node) :
  reachable s t -> exists p : list node, search s t = Some p /\ shortest_path s t p.
Proof.
  intros Hr. destruct (search s t) as [p|] eqn:E.
  - exists p. split; [reflexivity | now apply search_Some].
  - now apply search_None in E.
Qed.

End Cheapest.

(** [t] is the last node of a path to [t]. *)
Lemma is_path_last (s t : node) (p : list node) : is_path s t p -> t ∈ p.
Proof.
  induction 1 as [s|s u t p w Hw Hp IH]; [now apply list_elem_of_singleton|].
  apply elem_of_cons. now right.
Qed.

Lemma is_path_nonempty (s t : node) (p : list node) : is_path s t p -> p <> [].
Proof. now destruct 1. Qed.

End Paths.

(** *** What the scripts expect of the library

    The documented behaviour of [nx.dijkstra_path],
    [nx.dijkstra_path_length], [nx.single_source_dijkstra_path_length] and
    [nx.single_source_bellman_ford_path_length] on a graph with valid
    weights and a source that is a node: a shortest path, its length, and
    the lengths to all the nodes that can be reached; [NetworkXNoPath]
    when there is no path to the target. *)

Definition path_contract {W : Type} `{Weight W}
    (f : WDiGraph W -> node -> node -> PyResult (list node)) : Prop :=
  forall (G : WDiGraph W) (s t : node),
    well_weighted G -> s ∈ wnodes G ->
    (reachable G s t -> exists p, f G s t = Ok p /\ shortest_path G s t p) /\
    (~ reachable G s t -> exists msg, f G s t = Raise (NetworkXNoPath msg)).

Definition length_contract {W : Type} `{Weight W}
    (f : WDiGraph W -> node -> node -> PyResult W) : Prop :=
  forall (G : WDiGraph W) (s t : node),
    well_weighted G -> s ∈ wnodes G ->
    (reachable G s t -> exists d, f G s t = Ok d /\ shortest_dist G s t d) /\
    (~ reachable G s t -> exists msg, f G s t = Raise (NetworkXNoPath msg)).

Definition lengths_contract {W : Type} `{Weight W}
    (f : WDiGraph W -> node -> PyResult (gmap node W)) : Prop :=
  forall (G : WDiGraph W) (s : node),
    well_weighted G -> s ∈ wnodes G ->
    exists m : gmap node W,
      f G s = Ok m /\ forall (t : node) (d : W), m !! t = Some d <-> shortest_dist G s t d.

(** *** Reference implementations of the four functions *)

Section Reference.
Context {W : Type} `{Weight W}.

Definition ref_path (G : WDiGraph W) (source target : node) : PyResult (list node) :=
  if bool_decide (source ∈ wnodes G) then
    match search G source target with
    | Some p => Ok p
    | None => Raise (NetworkXNoPath ("No path to " +:+ target +:+ "."))
    end
  else Raise (NodeNotFound ("Node " +:+ source +:+ " not found in graph")).

Definition ref_length (G : WDiGraph W) (source target : node) : PyResult W :=
  if bool_decide (source ∈ wnodes G) then
    match search G source target with
    | Some p => Ok (path_cost G p)
    | None => Raise (NetworkXNoPath
                       ("Node " +:+ target +:+ " not reachable from " +:+ source))
    end
  else Raise (NodeNotFound ("Node " +:+ source +:+ " not found in graph")).

Definition lengths_of (G : WDiGraph W) (source : node) (ts : list node) : gmap node W :=
  foldr (fun t m => match search G source t with
                    | Some p => <[t := path_cost G p]> m
                    | None => m
                    end) ∅ ts.

Definition ref_lengths (G : WDiGraph W) (source : node) : PyResult (gmap node W) :=
  if bool_decide (source ∈ wnodes G) then
    Ok (lengths_of G source (source :: ((fun e : node * node * W => e.1.2) <$> wedges G)))
  else Raise (NodeNotFound ("Node " +:+ source +:+ " not found in graph")).

Context `{!WeightOrder W}.

Lemma ref_path_contract : path_contract ref_path.
Proof.
  intros G s t _ Hs. unfold ref_path. rewrite bool_decide_eq_true_2 by exact Hs. split.
  - intros Hr. destruct (search_reachable G s t Hr) as (p & -> & Hp). eauto.
  - intros Hn. destruct (search G s t) as [p|] eqn:E; [|eauto].
    destruct Hn. exists p. now apply search_Some in E as [Hp _].
Qed.

Lemma ref_length_contract : length_contract ref_length.
Proof.
  intros G s t _ Hs. unfold ref_length. rewrite bool_decide_eq_true_2 by exact Hs. split.
  - intros Hr. destruct (search_reachable G s t Hr) as (p & -> & Hp).
    exists (path_cost G p). split; [reflexivity|]. exists p. auto.
  - intros Hn. destruct (search G s t) as [p|] eqn:E; [|eauto].
    destruct Hn. exists p. now apply search_Some in E as [Hp _].
Qed.

Lemma lengths_of_lookup (G : WDiGraph W) (s t : node) (ts : list node) :
  lengths_of G s ts !! t =
    if bool_decide (t ∈ ts) then path_cost G <$> search G s t else None.
Proof.
  induction ts as [|t' ts IH]; cbn [lengths_of foldr].
  - rewrite lookup_empty. reflexivity.
  - fold (lengths_of G s ts). destruct (decide (t' = t)) as [->|Hne].
    + rewrite bool_decide_eq_true_2 by (apply elem_of_cons; now left).
      destruct (search G s t) as [p|] eqn:E.
      * now rewrite lookup_insert_eq.
      * rewrite IH. now destruct (bool_decide _).
    + assert (Hb : bool_decide (t ∈ t' :: ts) = bool_decide (t ∈ ts)).
      { apply bool_decide_ext. rewrite elem_of_cons. split; [intros [->|Ht]|]; auto; done. }
      rewrite Hb, <- IH. destruct (search G s t'); [now rewrite lookup_insert_ne|reflexivity].
Qed.

Lemma shortest_dist_unique `{!WeightLinear W} (G : WDiGraph W) (s t : node) (d d' : W) :
  shortest_dist G s t d -> shortest_dist G s t d' -> d = d'.
Proof.
  intros (p & (Hp & Hnd & Hmin) & <-) (p' & (Hp' & Hnd' & Hmin') & <-).
  apply wltb_linear; auto.
Qed.

Lemma ref_lengths_contract `{!WeightLinear W} : lengths_contract ref_lengths.
Proof.
  intros G s _ Hs. unfold ref_lengths. rewrite bool_decide_eq_true_2 by exact Hs.
  eexists. split; [reflexivity|]. intros t d. rewrite lengths_of_lookup. split.
  - destruct (bool_decide _); [|discriminate].
    destruct (search G s t) as [p|] eqn:E; [|discriminate].
    intros [= <-]. exists p. split; [now apply search_Some|reflexivity].
  - intros Hd. pose proof Hd as (p & (Hp & Hnd & Hmin) & <-).
    rewrite bool_decide_eq_true_2.
    + destruct (search_reachable G s t) as (p' & -> & Hp'); [now exists p|].
      cbn. f_equal. apply (shortest_dist_unique G s t); [now exists p'|exact Hd].
    + pose proof (is_path_last _ _ _ _ Hp) as Hl.
      destruct p as [|x p]; [now apply elem_of_nil in Hl|].
      pose proof (is_path_head _ _ _ _ Hp) as Hh. cbn in Hh. injection Hh as ->.
      apply elem_of_cons in Hl as [->|Hl]; apply elem_of_cons; [now left|right].
      apply (is_path_tail_targets G s t (s :: p) Hp). exact Hl.
Qed.

End Reference.

End Nx.

(** * [src/main.py]: traffic simulation with congestion *)
Module Main.
Import PyFloat.

#[local] Open Scope float_scope.

(** ** Graph model: a [networkx.DiGraph] with four attributes per edge *)

Record EdgeData : Type := mkEdgeData {
  base_weight : Z;
  weight : float;
  open : bool;
  congestion_level : float
}.

(** The triples [G.edges(data=True)] yields. *)
Definition Edge : Type := node * node * EdgeData.

Definition edge_key (e : Edge) : node * node := (e.1.1, e.1.2).
Definition edge_data (e : Edge) : EdgeData := e.2.

(** [edges] lists the edges in the iteration order of [G.edges()]. *)
Record DiGraph : Type := mkDiGraph {
  nodes : list node;
  edges : list Edge
}.

Definition add_node (n : node) (ns : list node) : list node :=
  if bool_decide (n ∈ ns) then ns else ns ++ [n].

(** [G.add_edge(u, v, **attrs)] with all four attributes given: a new edge
    is appended, an existing one has its attributes overwritten. *)
Definition add_edge (G : DiGraph) (u v : node) (data : EdgeData) : DiGraph :=
  {| nodes := add_node v (add_node u (nodes G));
     edges := if bool_decide ((u, v) ∈ edge_key <$> edges G)
              then (fun e => if bool_decide (edge_key e = (u, v)) then (u, v, data) else e)
                     <$> edges G
              else edges G ++ [(u, v, data)] |}.

Definition init_edges : list (node * node) :=
  [("A", "B"); ("A", "C"); ("B", "C"); ("B", "D");
   ("C", "D"); ("C", "E"); ("D", "E")]%string.

(** [init_graph]: [randint k] is the value of the [k]-th call of
    [random.randint(5, 15)]. *)
Definition init_graph (randint : nat -> Z) : DiGraph :=
  foldl (fun G '(k, (u, v)) =>
           add_edge G u v {| base_weight := randint k; weight := 0;
                             open := true; congestion_level := 0.0 |})
        {| nodes := []; edges := [] |}
        (imap (fun k uv => (k, uv)) init_edges).

(** [G[u][v]['open'] = b], the effect of one sidebar checkbox. *)
Definition set_open (G : DiGraph) (u v : node) (b : bool) : DiGraph :=
  {| nodes := nodes G;
     edges := (fun e => if bool_decide (edge_key e = (u, v))
                        then (e.1, {| base_weight := base_weight e.2; weight := weight e.2;
                                      open := b; congestion_level := congestion_level e.2 |})
                        else e) <$> edges G |}.

(** ** [update_traffic] *)

(** [set(zip(path, path[1:]))]. *)
Definition used_edges (path : list node) : list (node * node) :=
  zip path (tail path).

(** [(u, v)] occurs as a consecutive pair in [path]. *)
Definition consecutive (path : list node) (u v : node) : Prop :=
  exists k : nat, path !! k = Some u /\ path !! S k = Some v.

Section Traffic.

(** The built-in [round(x, 2)]. *)
Variable round2 : float -> float.

(** The body of the loop of [update_traffic] for one edge. *)
Definition update_edge (used : list (node * node)) (u v : node) (data : EdgeData)
    (r : Rng) : EdgeData * Rng :=
  if open data then
    let c := if bool_decide ((u, v) ∈ used)
             then pymin (congestion_level data + 0.05) 1.0
             else pymax (congestion_level data * 0.95) 0.0 in
    let '(fluctuation, r') := uniform r in
    ({| base_weight := base_weight data;
        weight := round2 (float_of_int (base_weight data) * fluctuation * (1 + c));
        open := open data;
        congestion_level := c |}, r')
  else
    ({| base_weight := base_weight data;
        weight := infinity;
        open := open data;
        congestion_level := congestion_level data |}, r).

Fixpoint update_edges (used : list (node * node)) (es : list Edge) (r : Rng)
    : list Edge * Rng :=
  match es with
  | [] => ([], r)
  | (u, v, data) :: es' =>
      let '(data', r1) := update_edge used u v data r in
      let '(es'', r2) := update_edges used es' r1 in
      ((u, v, data') :: es'', r2)
  end.

Definition update_traffic (G : DiGraph) (path : list node) (r : Rng) : DiGraph * Rng :=
  let '(es, r') := update_edges (used_edges path) (edges G) r in
  ({| nodes := nodes G; edges := es |}, r').

(** ** Vehicle controller: the session state and the two sidebar buttons *)

Record Session : Type := mkSession {
  graph : DiGraph;
  vehicle_index : Z;
  rng : Rng
}.

(** [if st.sidebar.button("Move Vehicle") and path: ...] with the button pressed. *)
Definition move_vehicle (path : list node) (s : Session) : Session :=
  if bool_decide (path <> []) then
    if (vehicle_index s <? Z.of_nat (length path) - 1)%Z then
      let '(G', r') := update_traffic (graph s) path (rng s) in
      {| graph := G'; vehicle_index := vehicle_index s + 1; rng := r' |}
    else s
  else s.

(** [if st.sidebar.button("Reset Vehicle"): ...] with the button pressed. *)
Definition reset_vehicle (s : Session) : Session :=
  let '(G', r') := update_traffic (graph s) [] (rng s) in
  {| graph := G'; vehicle_index := 0; rng := r' |}.

(** What a user can make happen between two renderings. *)
Inductive Action : Type :=
  | ActUpdate (path : list node)
  | ActSetOpen (u v : node) (b : bool).

Definition step (a : Action) (st : DiGraph * Rng) : DiGraph * Rng :=
  match a with
  | ActUpdate path => update_traffic st.1 path st.2
  | ActSetOpen u v b => (set_open st.1 u v b, st.2)
  end.

Definition run (acts : list Action) (st : DiGraph * Rng) : DiGraph * Rng :=
  foldl (fun st a => step a st) st acts.


(** The "Recalculate Traffic" button. *)
Definition recalculate (path : list node) (s : Session) : Session :=
  let '(G', r') := update_traffic (graph s) path (rng s) in
  {| graph := G'; vehicle_index := 0; rng := r' |}.

(** ** Properties of [update_traffic] *)

Lemma used_edges_spec (path : list node) (u v : node) :
  (u, v) ∈ used_edges path <-> consecutive path u v.
Proof.
  unfold used_edges, consecutive. rewrite elem_of_lookup_zip_with.
  split.
  - intros (k & x & y & E & Hx & Hy). injection E as -> ->.
    exists k. rewrite lookup_tail in Hy. auto.
  - intros (k & Hx & Hy). exists k, u, v. rewrite lookup_tail. auto.
Qed.

Lemma uniform_range_next (r : Rng) : uniform_range r -> uniform_range (uniform r).2.
Proof. intros H k. apply (H (S k)). Qed.

Lemma update_edge_rng (used : list (node * node)) (u v : node) (d : EdgeData) (r : Rng) :
  uniform_range r -> uniform_range (update_edge used u v d r).2.
Proof.
  intros H. unfold update_edge. destruct (open d); [|exact H].
  apply uniform_range_next, H.
Qed.

(** The edge at position [i] is rewritten by the loop body, run on the
    generator state reached after the edges before it. *)
Lemma update_edges_lookup (used : list (node * node)) (es : list Edge) :
  forall (r : Rng) (i : nat) (u v : node) (d : EdgeData),
    es !! i = Some (u, v, d) ->
    exists ri : Rng,
      (uniform_range r -> uniform_range ri) /\
      (update_edges used es r).1 !! i = Some (u, v, (update_edge used u v d ri).1).
Proof.
  induction es as [|[[u0 v0] d0] es IH]; intros r i u v d Hi; [discriminate|].
  cbn [update_edges].
  destruct (update_edge used u0 v0 d0 r) as [d0' r1] eqn:E0.
  destruct (update_edges used es r1) as [es' r2] eqn:E1.
  destruct i as [|i]; cbn in Hi |- *.
  - injection Hi as -> -> ->. exists r. split; [auto|]. now rewrite E0.
  - destruct (IH r1 i u v d Hi) as (ri & Hr & Hl).
    exists ri. split.
    + intros H. apply Hr. replace r1 with (update_edge used u0 v0 d0 r).2 by now rewrite E0.
      apply update_edge_rng, H.
    + rewrite E1 in Hl. exact Hl.
Qed.

Lemma update_edges_rng (used : list (node * node)) (es : list Edge) : forall r : Rng,
  uniform_range r -> uniform_range (update_edges used es r).2.
Proof.
  induction es as [|[[u0 v0] d0] es IH]; intros r H; [exact H|].
  cbn [update_edges].
  destruct (update_edge used u0 v0 d0 r) as [d0' r1] eqn:E0.
  specialize (IH r1).
  destruct (update_edges used es r1) as [es' r2] eqn:E1.
  apply IH. replace r1 with (update_edge used u0 v0 d0 r).2 by now rewrite E0.
  apply update_edge_rng, H.
Qed.

(** What the loop leaves untouched in every edge: end points, base weight
    and the open flag. *)
Definition edge_frame (e : Edge) : node * node * Z * bool :=
  (e.1.1, e.1.2, base_weight e.2, open e.2).

Lemma update_edge_frame (used : list (node * node)) (u v : node) (d : EdgeData) (r : Rng) :
  base_weight (update_edge used u v d r).1 = base_weight d /\
  open (update_edge used u v d r).1 = open d.
Proof. unfold update_edge. destruct (open d) eqn:E; cbn; auto. Qed.

Lemma update_edges_frame (used : list (node * node)) (es : list Edge) : forall r : Rng,
  edge_frame <$> (update_edges used es r).1 = edge_frame <$> es.
Proof.
  induction es as [|[[u0 v0] d0] es IH]; intros r; [reflexivity|].
  cbn [update_edges].
  pose proof (update_edge_frame used u0 v0 d0 r) as [Hb Ho].
  destruct (update_edge used u0 v0 d0 r) as [d0' r1] eqn:E0.
  specialize (IH r1).
  destruct (update_edges used es r1) as [es' r2] eqn:E1.
  cbn in *. rewrite IH. unfold edge_frame at 1 3. cbn. now rewrite Hb, Ho.
Qed.

Lemma update_traffic_edges (G : DiGraph) (path : list node) (r : Rng) :
  edges (update_traffic G path r).1 = (update_edges (used_edges path) (edges G) r).1.
Proof. unfold update_traffic. now destruct (update_edges _ _ _). Qed.

Lemma update_traffic_rng (G : DiGraph) (path : list node) (r : Rng) :
  (update_traffic G path r).2 = (update_edges (used_edges path) (edges G) r).2.
Proof. unfold update_traffic. now destruct (update_edges _ _ _). Qed.

Lemma update_traffic_nodes (G : DiGraph) (path : list node) (r : Rng) :
  nodes (update_traffic G path r).1 = nodes G.
Proof. unfold update_traffic. now destruct (update_edges _ _ _). Qed.

(** C1. One call of [update_traffic] with traveled path [path] sets the
    congestion level of every open edge [(u, v)] to [min(old + 0.05, 1.0)]
    when [(u, v)] is a consecutive pair of [path] and to
    [max(old * 0.95, 0.0)] otherwise; the new weight of the edge is
    [round(base_weight * f * (1 + new congestion), 2)] for a fluctuation
    [f] with [0.9 <= f <= 1.2]. *)
Theorem update_traffic_open_edge (G : DiGraph) (path : list node) (r : Rng)
    (i : nat) (u v : node) (d : EdgeData) :
  uniform_range r ->
  edges G !! i = Some (u, v, d) ->
  open d = true ->
  exists (d' : EdgeData) (f : float),
    edges (update_traffic G path r).1 !! i = Some (u, v, d') /\
    (consecutive path u v ->
       congestion_level d' = pymin (congestion_level d + 0.05) 1.0) /\
    (~ consecutive path u v ->
       congestion_level d' = pymax (congestion_level d * 0.95) 0.0) /\
    ((0.9 <=? f) = true /\ (f <=? 1.2) = true) /\
    weight d' = round2 (float_of_int (base_weight d) * f * (1 + congestion_level d')).
Proof.
  intros Hr Hi Ho.
  destruct (update_edges_lookup (used_edges path) (edges G) r i u v d Hi) as (ri & Hri & Hl).
  rewrite update_traffic_edges.
  exists (update_edge (used_edges path) u v d ri).1, (ri 0%nat).
  split; [exact Hl|].
  unfold update_edge. rewrite Ho. cbn.
  repeat split; try apply (Hri Hr).
  - intros Hc. rewrite bool_decide_eq_true_2; [reflexivity|]. now apply used_edges_spec.
  - intros Hc. rewrite bool_decide_eq_false_2; [reflexivity|]. now rewrite used_edges_spec.
Qed.

(** C5. For a closed edge, a call of [update_traffic] sets the weight to
    [+infinity] and leaves the congestion level as it was, whatever the
    traveled path and the congestion level are. *)
Theorem update_traffic_closed_edge (G : DiGraph) (path : list node) (r : Rng)
    (i : nat) (u v : node) (d : EdgeData) :
  edges G !! i = Some (u, v, d) ->
  open d = false ->
  edges (update_traffic G path r).1 !! i =
    Some (u, v, {| base_weight := base_weight d; weight := infinity;
                   open := false; congestion_level := congestion_level d |}).
Proof.
  intros Hi Ho.
  destruct (update_edges_lookup (used_edges path) (edges G) r i u v d Hi) as (ri & _ & Hl).
  rewrite update_traffic_edges, Hl. unfold update_edge. now rewrite Ho.
Qed.

(** C10. A call of [update_traffic] changes nothing but congestion levels
    and weights: the nodes, the list of edges, and the base weight and the
    open flag of every edge are as before. *)
Theorem update_traffic_frame (G : DiGraph) (path : list node) (r : Rng) :
  nodes (update_traffic G path r).1 = nodes G /\
  edge_frame <$> edges (update_traffic G path r).1 = edge_frame <$> edges G.
Proof.
  split; [apply update_traffic_nodes|].
  rewrite update_traffic_edges. apply update_edges_frame.
Qed.

(** *** The congestion level stays in the unit interval *)

Definition congestion_in_unit (G : DiGraph) : Prop :=
  Forall (fun e : Edge => in_unit (congestion_level e.2)) (edges G).

Lemma update_edge_in_unit (used : list (node * node)) (u v : node) (d : EdgeData) (r : Rng) :
  in_unit (congestion_level d) ->
  in_unit (congestion_level (update_edge used u v d r).1).
Proof.
  intros Hc. unfold update_edge. destruct (open d); cbn; [|exact Hc].
  destruct (bool_decide _).
  - apply pymin_in_unit, add_nonneg; [apply Hc | reflexivity].
  - apply decay_in_unit, Hc.
Qed.

Lemma update_edges_in_unit (used : list (node * node)) (es : list Edge) : forall r : Rng,
  Forall (fun e : Edge => in_unit (congestion_level e.2)) es ->
  Forall (fun e : Edge => in_unit (congestion_level e.2)) (update_edges used es r).1.
Proof.
  induction es as [|[[u0 v0] d0] es IH]; intros r H; [constructor|].
  cbn [update_edges]. inversion H as [|? ? Hd Hes]; subst.
  pose proof (update_edge_in_unit used u0 v0 d0 r Hd) as Hd'.
  destruct (update_edge used u0 v0 d0 r) as [d0' r1].
  specialize (IH r1 Hes). destruct (update_edges used es r1) as [es' r2].
  constructor; assumption.
Qed.

Lemma step_in_unit (a : Action) (st : DiGraph * Rng) :
  congestion_in_unit st.1 -> congestion_in_unit (step a st).1.
Proof.
  unfold congestion_in_unit. destruct a as [path|u v b]; cbn [step].
  - rewrite update_traffic_edges. apply update_edges_in_unit.
  - cbn. rewrite Forall_fmap. intros H. eapply Forall_impl; [exact H|].
    intros [[u0 v0] d0] Hd. cbn. destruct (bool_decide _); exact Hd.
Qed.

Lemma run_in_unit (acts : list Action) : forall st : DiGraph * Rng,
  congestion_in_unit st.1 -> congestion_in_unit (run acts st).1.
Proof.
  induction acts as [|a acts IH]; intros st H; [exact H|].
  cbn. apply IH, step_in_unit, H.
Qed.

(** C2. Starting from congestion level [0.0] on every edge, after any
    finite sequence of traffic updates (with arbitrary traveled paths) and
    of open/closed settings, every edge has [0.0 <= congestion_level <= 1.0]. *)
Theorem congestion_level_bounds (G : DiGraph) (r : Rng) (acts : list Action) :
  Forall (fun e : Edge => congestion_level e.2 = 0.0) (edges G) ->
  Forall (fun e : Edge => (0.0 <=? congestion_level e.2) = true /\
                          (congestion_level e.2 <=? 1.0) = true)
         (edges (run acts (G, r)).1).
Proof.
  intros H0. apply (run_in_unit acts (G, r)).
  unfold congestion_in_unit. cbn. eapply Forall_impl; [exact H0|].
  intros e ->. split; reflexivity.
Qed.

(** *** Decay under the empty path, and the reset button *)




(** C7. With the "Move Vehicle" button pressed: when the path is empty or
    the cursor is at [len(path) - 1], nothing happens (the cursor, the
    graph and the random generator are as before, so no traffic update
    ran); when the path is non-empty and [cursor < len(path) - 1], the
    cursor goes up by one and [update_traffic] runs once, with the whole
    path. *)
Theorem move_vehicle_spec (path : list node) (s : Session) :
  (path = [] \/ vehicle_index s = (Z.of_nat (length path) - 1)%Z ->
     move_vehicle path s = s) /\
  (path <> [] /\ (vehicle_index s < Z.of_nat (length path) - 1)%Z ->
     move_vehicle path s =
       {| graph := (update_traffic (graph s) path (rng s)).1;
          vehicle_index := vehicle_index s + 1;
          rng := (update_traffic (graph s) path (rng s)).2 |}).
Proof.
  unfold move_vehicle. split.
  - intros [->|E]; [reflexivity|].
    destruct (bool_decide _); [|reflexivity].
    rewrite E, Z.ltb_irrefl. reflexivity.
  - intros [Hp Hlt]. rewrite bool_decide_eq_true_2 by exact Hp.
    apply Z.ltb_lt in Hlt. rewrite Hlt. now destruct (update_traffic _ _ _).
Qed.

End Traffic.

(** ** Path planner *)

(** The graph as [nx.dijkstra_path(G, ..., weight='weight')] reads it. *)
Definition weighted (G : DiGraph) : Nx.WDiGraph float :=
  {| Nx.wnodes := nodes G;
     Nx.wedges := (fun e : Edge => (e.1.1, e.1.2, weight e.2)) <$> edges G |}.

(** The open edges alone, with their weights. *)
Definition open_edges (G : DiGraph) : Nx.WDiGraph float :=
  {| Nx.wnodes := nodes G;
     Nx.wedges := (fun e : Edge => (e.1.1, e.1.2, weight e.2)) <$>
                    filter (fun e : Edge => open e.2 = true) (edges G) |}.


Section Planner.

(** [nx.dijkstra_path] and [nx.dijkstra_path_length]. *)
Variable dijkstra_path : Nx.WDiGraph float -> node -> node -> PyResult (list node).
Variable dijkstra_path_length : Nx.WDiGraph float -> node -> node -> PyResult float.

Definition get_shortest_path (G : DiGraph) (source target : node)
    : PyResult (list node * float) :=
  match dijkstra_path (weighted G) source target with
  | Ok path =>
      match dijkstra_path_length (weighted G) source target with
      | Ok cost => Ok (path, cost)
      | Raise (NetworkXNoPath _) => Ok ([], infinity)
      | Raise e => Raise e
      end
  | Raise (NetworkXNoPath _) => Ok ([], infinity)
  | Raise e => Raise e
  end.


Lemma cost_from_plus (G : Nx.WDiGraph float) (s t : node) (p : list node) :
  Nx.well_weighted G -> Nx.is_path G s t p ->
  forall acc : float, fplus acc -> fplus (Nx.cost_from G acc p).
Proof.
  intros Hw. induction 1 as [s|s u t p w Hsu Hp IH]; intros acc Hacc; [exact Hacc|].
  pose proof (Nx.is_path_head _ _ _ _ Hp) as Hh.
  destruct p as [|u' p]; [discriminate|]. cbn in Hh. injection Hh as ->.
  cbn [Nx.cost_from]. apply IH. rewrite Hsu. cbn.
  apply add_plus; [exact Hacc|]. apply (Hw (s, u, w)). eapply Nx.edge_weight_elem, Hsu.
Qed.

Lemma path_cost_plus (G : Nx.WDiGraph float) (s t : node) (p : list node) :
  Nx.well_weighted G -> Nx.is_path G s t p -> fplus (Nx.path_cost G p).
Proof. intros Hw Hp. now apply (cost_from_plus G s t p Hw Hp). Qed.

Hypothesis path_ok : Nx.path_contract dijkstra_path.
Hypothesis length_ok : Nx.length_contract dijkstra_path_length.

Lemma get_shortest_path_reachable (G : DiGraph) (s t : node) :
  Nx.well_weighted (weighted G) -> s ∈ nodes G -> Nx.reachable (weighted G) s t ->
  exists p : list node,
    get_shortest_path G s t = Ok (p, Nx.path_cost (weighted G) p) /\
    Nx.shortest_path (weighted G) s t p.
Proof.
  intros Hw Hs Hr. unfold get_shortest_path.
  destruct (path_ok (weighted G) s t Hw Hs) as [Hp _].
  destruct (length_ok (weighted G) s t Hw Hs) as [Hl _].
  destruct (Hp Hr) as (p & -> & Hsp). destruct (Hl Hr) as (d & -> & (p' & Hsp' & <-)).
  exists p. split; [|exact Hsp]. do 2 f_equal.
  destruct Hsp as (Hpath & Hnd & Hmin), Hsp' as (Hpath' & Hnd' & Hmin').
  apply plus_antisym; eauto using path_cost_plus.
Qed.

(** What the code does about paths that are not there: the sentinel is
    returned exactly when there is no path over the edges of the graph,
    closed ones included. *)
Lemma get_shortest_path_sentinel (G : DiGraph) (s t : node) :
  Nx.well_weighted (weighted G) -> s ∈ nodes G ->
  (get_shortest_path G s t = Ok ([], infinity) <-> ~ Nx.reachable (weighted G) s t).
Proof.
  intros Hw Hs. split.
  - intros E Hr. destruct (get_shortest_path_reachable G s t Hw Hs Hr) as (p & E' & Hp & _).
    rewrite E' in E. injection E as -> _. now apply Nx.is_path_nonempty in Hp.
  - intros Hn. unfold get_shortest_path.
    destruct (path_ok (weighted G) s t Hw Hs) as [_ Hp].
    now destruct (Hp Hn) as (msg & ->).
Qed.


End Planner.

(** ** The model on concrete inputs *)

(** The initial graph when every base weight is drawn as 10, the graph
    after the checkbox of the road from A to B is cleared, and a generator
    that always returns 1.0. *)
Definition G0 : DiGraph := init_graph (fun _ => 10%Z).
Definition G1 : DiGraph := set_open G0 "A" "B" false.
Definition r1 : Rng := fun _ => 1.0.

Lemma init_graph_edges (randint : nat -> Z) :
  edges (init_graph randint) =
    (fun '(k, (u, v)) => (u, v, {| base_weight := randint k; weight := 0;
                                   open := true; congestion_level := 0.0 |}))
      <$> imap (fun k uv => (k, uv)) init_edges.
Proof. reflexivity. Qed.

(** The edges of [init_graph] are added source by source, so the list is
    already in the order of [G.edges()]. *)
Lemma init_graph_edges_order (randint : nat -> Z) :
  edges_by_source (nodes (init_graph randint)) (edges (init_graph randint)) =
  edges (init_graph randint).
Proof. reflexivity. Qed.

Lemma init_graph_nodes (randint : nat -> Z) :
  nodes (init_graph randint) = ["A"; "B"; "C"; "D"; "E"]%string.
Proof. reflexivity. Qed.

Lemma r1_range : uniform_range r1.
Proof. intros k. split; reflexivity. Qed.

Lemma well_weighted_Forall (G : Nx.WDiGraph float) :
  Forall (fun e : node * node * float => fnonneg e.2) (Nx.wedges G) -> Nx.well_weighted G.
Proof. intros H e He. exact (proj1 (Forall_forall _ _) H e He). Qed.

#[local] Open Scope string_scope.
#[local] Open Scope float_scope.

Lemma update_traffic_open_edge_witness :
  exists (d' : EdgeData) (f : float),
    edges (update_traffic py_round2 G0 ["A"; "B"; "D"] r1).1 !! 0%nat = Some ("A", "B", d') /\
    (consecutive ["A"; "B"; "D"] "A" "B" ->
       congestion_level d' = pymin (0.0 + 0.05) 1.0) /\
    (~ consecutive ["A"; "B"; "D"] "A" "B" ->
       congestion_level d' = pymax (0.0 * 0.95) 0.0) /\
    ((0.9 <=? f) = true /\ (f <=? 1.2) = true) /\
    weight d' = py_round2 (float_of_int 10 * f * (1 + congestion_level d')).
Proof.
  exact (update_traffic_open_edge py_round2 G0 ["A"; "B"; "D"] r1 0 "A" "B"
           {| base_weight := 10; weight := 0; open := true; congestion_level := 0 |}
           r1_range eq_refl eq_refl).
Defined.

Lemma update_traffic_closed_edge_witness :
  edges (update_traffic py_round2 G1 ["A"; "B"; "D"] r1).1 !! 0%nat =
    Some ("A", "B", {| base_weight := 10; weight := infinity;
                       open := false; congestion_level := 0 |}).
Proof.
  exact (update_traffic_closed_edge py_round2 G1 ["A"; "B"; "D"] r1 0 "A" "B"
           {| base_weight := 10; weight := 0; open := false; congestion_level := 0 |}
           eq_refl eq_refl).
Defined.

Lemma congestion_level_bounds_witness :
  Forall (fun e : Edge => (0.0 <=? congestion_level e.2) = true /\
                          (congestion_level e.2 <=? 1.0) = true)
         (edges (run py_round2
                   [ActUpdate ["A"; "B"; "D"]; ActSetOpen "B" "D" false; ActUpdate []]
                   (G0, r1)).1).
Proof.
  apply (congestion_level_bounds py_round2 G0 r1).
  repeat constructor.
Defined.



(** C4. The closed road from A to B is the only way into B, so B cannot be
    reached from A over open edges; yet the planner, whatever
    implementation of the library contract it runs on, does not return
    the sentinel for (A, B). *)
Theorem closed_edge_not_excluded
    (dijkstra_path : Nx.WDiGraph float -> node -> node -> PyResult (list node))
    (dijkstra_path_length : Nx.WDiGraph float -> node -> node -> PyResult float) :
  Nx.path_contract dijkstra_path -> Nx.length_contract dijkstra_path_length ->
  ~ Nx.reachable (open_edges G1) "A" "B" /\
  get_shortest_path dijkstra_path dijkstra_path_length G1 "A" "B" <> Ok ([], infinity).
Proof.
  intros Hp Hl. split.
  - apply Nx.search_None; [apply _|]. vm_compute. reflexivity.
  - intros E. apply (get_shortest_path_sentinel _ _ Hp Hl) in E.
    + apply E. exists ["A"; "B"].
      apply (Nx.is_path_step (weighted G1) "A" "B" "B" _ 0 eq_refl). constructor.
    + apply well_weighted_Forall. repeat constructor.
    + repeat constructor.
Qed.

Lemma closed_edge_not_excluded_witness :
  ~ Nx.reachable (open_edges G1) "A" "B" /\
  get_shortest_path Nx.ref_path Nx.ref_length G1 "A" "B" <> Ok ([], infinity).
Proof.
  exact (closed_edge_not_excluded Nx.ref_path Nx.ref_length
           Nx.ref_path_contract Nx.ref_length_contract).
Defined.

(** The same input run on the reference implementation, before and after
    a traffic update: the returned path is the closed road itself. *)
Example closed_edge_returned :
  get_shortest_path Nx.ref_path Nx.ref_length G1 "A" "B" = Ok (["A"; "B"], 0) /\
  get_shortest_path Nx.ref_path Nx.ref_length (update_traffic py_round2 G1 [] r1).1 "A" "B"
    = Ok (["A"; "B"], infinity).
Proof. split; vm_compute; reflexivity. Qed.

End Main.

(** * [src/trial1.py]: Dijkstra and Bellman-Ford front end *)
Module Trial1.

#[local] Open Scope string_scope.
#[local] Open Scope Z_scope.

(** [generate_graph]: [randint k] is the value of the [k]-th call of
    [random.randint(2, 10)]. *)
Definition generate_graph (randint : nat -> Z) : Nx.WDiGraph Z :=
  let edges := [("A", "B", randint 0%nat); ("A", "C", randint 1%nat);
                ("B", "D", randint 2%nat); ("C", "D", randint 3%nat);
                ("D", "E", randint 4%nat); ("B", "E", randint 5%nat)] in
  let ns := ["A"; "B"; "C"; "D"; "E"] in
  {| Nx.wnodes := ns; Nx.wedges := edges_by_source ns edges |}.

(** What the page shows, in order. *)
Inductive UiEvent : Type :=
  | StError (msg : string)
  | StSuccess (msg : string)
  | StWrite (msg : string)
  | StPlotlyChart (graph : Nx.WDiGraph Z) (path_lengths : gmap node Z) (source : node)
  | StTable (path_lengths : gmap node Z).

Section Handlers.

(** [nx.single_source_dijkstra_path_length] and
    [nx.single_source_bellman_ford_path_length]. *)
Variable single_source_dijkstra_path_length :
  Nx.WDiGraph Z -> node -> PyResult (gmap node Z).
Variable single_source_bellman_ford_path_length :
  Nx.WDiGraph Z -> node -> PyResult (gmap node Z).

Definition dijkstra (graph : Nx.WDiGraph Z) (source : node) : gmap node Z * list UiEvent :=
  match single_source_dijkstra_path_length graph source with
  | Ok path_lengths => (path_lengths, [])
  | Raise e => (∅, [StError ("Error running Dijkstra: " +:+ exc_message e)])
  end.

Definition bellman_ford (graph : Nx.WDiGraph Z) (source : node)
    : gmap node Z * list UiEvent :=
  match single_source_bellman_ford_path_length graph source with
  | Ok path_lengths => (path_lengths, [])
  | Raise e => (∅, [StError ("Error running Bellman-Ford: " +:+ exc_message e)])
  end.

(** The body of [if st.button("Run Simulation"):], with the graph it
    leaves behind and the page output it produces. *)
Definition run_simulation (algo source : string) (randint : nat -> Z)
    : Nx.WDiGraph Z * list UiEvent :=
  let G := generate_graph randint in
  if bool_decide (source ∉ Nx.wnodes G) then
    (G, [StError ("Source node '" +:+ source +:+
                  "' not found in the graph. Try A, B, C, D, or E.")])
  else
    let '(path_lengths, errors) :=
      if bool_decide (algo = "Dijkstra") then dijkstra G source else bellman_ford G source in
    (G, (errors ++
        [StSuccess (algo +:+ " algorithm ran successfully from source node '" +:+
                    source +:+ "'");
         StWrite "### Graph Visualization";
         StPlotlyChart G path_lengths source;
         StWrite "### Shortest Distances from Source";
         StTable path_lengths])%list).

(** C9. For a source that is not a node of the graph, the handler shows
    the node-not-found message and nothing else: its output does not
    depend on the shortest-path functions, which are not called, and the
    graph is as [generate_graph] built it. *)
Theorem source_not_found (algo source : string) (randint : nat -> Z) :
  source ∉ ["A"; "B"; "C"; "D"; "E"] ->
  run_simulation algo source randint =
    (generate_graph randint,
     [StError ("Source node '" +:+ source +:+
               "' not found in the graph. Try A, B, C, D, or E.")]).
Proof.
  intros Hs. unfold run_simulation. now rewrite bool_decide_eq_true_2.
Qed.



End Handlers.

Lemma source_not_found_witness :
  run_simulation Nx.ref_lengths Nx.ref_lengths "Dijkstra" "Z" (fun _ => 3) =
    (generate_graph (fun _ => 3),
     [StError "Source node 'Z' not found in the graph. Try A, B, C, D, or E."]).
Proof.
  apply (source_not_found Nx.ref_lengths Nx.ref_lengths "Dijkstra" "Z" (fun _ => 3)).
  intros H. repeat (apply elem_of_cons in H as [H|H]; [discriminate|]).
  now apply elem_of_nil in H.
Defined.

Lemma generate_graph_well_weighted (randint : nat -> Z) :
  (forall k : nat, 2 <= randint k <= 10) -> Nx.well_weighted (generate_graph randint).
Proof.
  intros Hr e He. cbn in He.
  repeat (apply elem_of_cons in He as [->|He]; [cbn; pose proof (Hr 0%nat);
    pose proof (Hr 1%nat); pose proof (Hr 2%nat); pose proof (Hr 3%nat);
    pose proof (Hr 4%nat); pose proof (Hr 5%nat); lia|]).
  now apply elem_of_nil in He.
Qed.


End Trial1.

(** * [src/main.py]: the rest of the page script *)
Module MainPage.
Import PyFloat Main.

#[local] Open Scope string_scope.
#[local] Open Scope float_scope.

(** ** Definitions *)

(** The loop over the sidebar checkboxes: [checkbox u v] is the state of
    the checkbox of the edge from [u] to [v], and every edge of
    [G.edges()] has its ['open'] attribute set to it. *)
Definition apply_checkboxes (checkbox : node -> node -> bool) (G : DiGraph) : DiGraph :=
  foldl (fun G '(u, v) => set_open G u v (checkbox u v)) G (edge_key <$> edges G).

(** The number of open edges. *)
Definition count_open (es : list Edge) : nat :=
  length (filter (fun e : Edge => open e.2 = true) es).

(** [l[i]] on a Python list: [None] stands for [IndexError]. *)
Definition py_getitem {A : Type} (l : list A) (i : Z) : option A :=
  if (0 <=? i)%Z then l !! Z.to_nat i
  else if (- Z.of_nat (length l) <=? i)%Z then l !! Z.to_nat (Z.of_nat (length l) + i)
  else None.

(** [vehicle_node = path[st.session_state.vehicle_index] if path else None]. *)
Inductive Marker : Type :=
  | NoVehicle
  | VehicleAt (n : node)
  | MarkerIndexError.

Definition vehicle_node (path : list node) (vehicle_index : Z) : Marker :=
  if bool_decide (path <> []) then
    match py_getitem path vehicle_index with
    | Some n => VehicleAt n
    | None => MarkerIndexError
    end
  else NoVehicle.


(** The three buttons of the page. *)
Inductive Button : Type := MoveVehicle | ResetVehicle | RecalculateTraffic.

Section Page.

Variable round2 : float -> float.

Definition press (path : list node) (b : Button) (s : Session) : Session :=
  match b with
  | MoveVehicle => move_vehicle round2 path s
  | ResetVehicle => reset_vehicle round2 s
  | RecalculateTraffic => recalculate round2 path s
  end.

(** ** Random draws of a traffic update *)

Lemma update_edges_draws (used : list (node * node)) (es : list Edge) :
  forall (r : Rng) (k : nat),
    (update_edges round2 used es r).2 k = r (k + count_open es)%nat.
Proof.
  induction es as [|[[u v] d] es IH]; intros r k.
  - cbn. f_equal. lia.
  - cbn [update_edges]. unfold count_open. rewrite filter_cons. cbn [snd].
    unfold update_edge. destruct (open d) eqn:Ho.
    + cbn [uniform]. specialize (IH (fun k => r (S k)) k).
      destruct (update_edges round2 used es (fun k => r (S k))) as [es' r2].
      cbn in *. rewrite IH. rewrite decide_True by reflexivity. cbn. f_equal.
      unfold count_open. lia.
    + specialize (IH r k). destruct (update_edges round2 used es r) as [es' r2].
      cbn in *. rewrite IH. rewrite decide_False by discriminate. reflexivity.
Qed.

(** X1. A traffic update draws exactly one random fluctuation per open
    edge and none for a closed edge: afterwards the generator stands
    [count_open] draws further. *)
Theorem update_traffic_draws (G : DiGraph) (path : list node) (r : Rng) (k : nat) :
  (update_traffic round2 G path r).2 k = r (k + count_open (edges G))%nat.
Proof. rewrite update_traffic_rng. apply update_edges_draws. Qed.

(** ** Closed roads *)

Lemma closed_edge_update (G : DiGraph) (path : list node) (r : Rng)
    (i : nat) (u v : node) (d : EdgeData) :
  edges G !! i = Some (u, v, d) ->
  open d = false ->
  edges (update_traffic round2 G path r).1 !! i =
    Some (u, v, {| base_weight := base_weight d; weight := infinity;
                   open := false; congestion_level := congestion_level d |}).
Proof.
  intros Hi Ho.
  destruct (update_edges_lookup round2 (used_edges path) (edges G) r i u v d Hi)
    as (ri & _ & Hl).
  rewrite update_traffic_edges, Hl. unfold update_edge. now rewrite Ho.
Qed.

(** X2. While a road stays closed its congestion level is frozen: after
    one or more traffic updates, with whatever traveled paths, a closed edge
    has weight [+infinity] and the congestion level it had before - it
    does not decay. *)
Theorem closed_edge_frozen (paths : list (list node)) (G : DiGraph) (r : Rng)
    (i : nat) (u v : node) (d : EdgeData) :
  edges G !! i = Some (u, v, d) ->
  open d = false ->
  paths <> [] ->
  edges (run round2 (ActUpdate <$> paths) (G, r)).1 !! i =
    Some (u, v, {| base_weight := base_weight d; weight := infinity;
                   open := false; congestion_level := congestion_level d |}).
Proof.
  intros Hi Ho Hne. destruct paths as [|p paths]; [done|]. clear Hne.
  cbn [fmap list_fmap run foldl step fst snd].
  pose proof (closed_edge_update G p r i u v d Hi Ho) as H1.
  set (d1 := {| base_weight := base_weight d; weight := infinity;
                open := false; congestion_level := congestion_level d |}) in *.
  assert (Hd1 : d1 = {| base_weight := base_weight d1; weight := infinity;
                        open := false; congestion_level := congestion_level d1 |})
    by reflexivity.
  revert H1. generalize (update_traffic round2 G p r). intros st H1.
  induction paths as [|q paths IH] in st, H1 |- *; [exact H1|].
  cbn [fmap list_fmap foldl step]. apply IH.
  rewrite Hd1. apply closed_edge_update; [exact H1 | reflexivity].
Qed.

(** ** The checkboxes *)

Definition with_open (b : bool) (e : Edge) : Edge :=
  (e.1, {| base_weight := base_weight e.2; weight := weight e.2;
           open := b; congestion_level := congestion_level e.2 |}).

Lemma foldl_set_open_nodes (checkbox : node -> node -> bool) (ks : list (node * node)) :
  forall G : DiGraph,
    nodes (foldl (fun G '(u, v) => set_open G u v (checkbox u v)) G ks) = nodes G.
Proof.
  induction ks as [|[u v] ks IH]; intros G; [reflexivity|]. cbn [foldl]. now rewrite IH.
Qed.

Lemma set_open_then_rest (checkbox : node -> node -> bool) (u v : node)
    (ks : list (node * node)) (e : Edge) :
  let e1 := if bool_decide (edge_key e = (u, v)) then with_open (checkbox u v) e else e in
  (if bool_decide (edge_key e1 ∈ ks) then with_open (checkbox e1.1.1 e1.1.2) e1 else e1) =
  (if bool_decide (edge_key e ∈ (u, v) :: ks) then with_open (checkbox e.1.1 e.1.2) e else e).
Proof.
  destruct e as [[u' v'] d']. unfold edge_key. cbn [fst snd].
  destruct (decide ((u', v') = (u, v))) as [E|NE].
  - injection E as -> ->. rewrite (bool_decide_eq_true_2 ((u, v) = (u, v))) by reflexivity.
    rewrite (bool_decide_eq_true_2 ((u, v) ∈ (u, v) :: ks)) by (apply elem_of_cons; now left).
    cbn. now destruct (bool_decide ((u, v) ∈ ks)).
  - rewrite (bool_decide_eq_false_2 ((u', v') = (u, v))) by exact NE. cbn.
    assert (Hb : bool_decide ((u', v') ∈ (u, v) :: ks) = bool_decide ((u', v') ∈ ks)).
    { apply bool_decide_ext. rewrite elem_of_cons. split; [intros [?|?]|]; auto; done. }
    now rewrite Hb.
Qed.

Lemma foldl_set_open_edges (checkbox : node -> node -> bool) (ks : list (node * node)) :
  forall G : DiGraph,
    edges (foldl (fun G '(u, v) => set_open G u v (checkbox u v)) G ks) =
    (fun e : Edge => if bool_decide (edge_key e ∈ ks)
                     then with_open (checkbox e.1.1 e.1.2) e else e) <$> edges G.
Proof.
  induction ks as [|[u v] ks IH]; intros G.
  - cbn [foldl]. rewrite <- (list_fmap_id (edges G)) at 1.
    apply list_fmap_ext. intros j e _.
    rewrite bool_decide_eq_false_2; [reflexivity|]. apply not_elem_of_nil.
  - cbn [foldl]. rewrite IH. cbn [set_open edges]. rewrite <- list_fmap_compose.
    apply list_fmap_ext. intros j e _. apply (set_open_then_rest checkbox u v ks e).
Qed.

Lemma apply_checkboxes_edges (checkbox : node -> node -> bool) (G : DiGraph) :
  edges (apply_checkboxes checkbox G) =
    (fun e : Edge => with_open (checkbox e.1.1 e.1.2) e) <$> edges G.
Proof.
  unfold apply_checkboxes. rewrite foldl_set_open_edges.
  apply list_fmap_ext. intros j e Hj.
  rewrite bool_decide_eq_true_2; [reflexivity|].
  apply list_elem_of_fmap. exists e. split; [reflexivity|].
  eapply list_elem_of_lookup_2, Hj.
Qed.

(** X3. After the checkbox loop every edge is open exactly when its
    checkbox is ticked, and nothing else has changed: the nodes, the edges
    and their order, and the base weight, the weight and the congestion
    level of every edge are as before. *)
Theorem apply_checkboxes_spec (checkbox : node -> node -> bool) (G : DiGraph) :
  nodes (apply_checkboxes checkbox G) = nodes G /\
  edges (apply_checkboxes checkbox G) =
    (fun e : Edge => with_open (checkbox e.1.1 e.1.2) e) <$> edges G.
Proof.
  split; [apply foldl_set_open_nodes | apply apply_checkboxes_edges].
Qed.

Lemma weighted_apply_checkboxes (checkbox : node -> node -> bool) (G : DiGraph) :
  weighted (apply_checkboxes checkbox G) = weighted G.
Proof.
  unfold weighted. rewrite apply_checkboxes_edges.
  unfold apply_checkboxes at 1. rewrite foldl_set_open_nodes. f_equal.
  rewrite <- list_fmap_compose. apply list_fmap_ext. now intros j [[u v] d] _.
Qed.

(** X4. Ticking or clearing checkboxes does not change what the planner
    returns: the answer of [get_shortest_path] after the checkbox loop is
    the answer before it, for every source and target and whatever the
    shortest-path functions are; a road closed by the user stays on the
    planned path until a traffic update rewrites the weights. *)
Theorem checkboxes_keep_plan
    (dijkstra_path : Nx.WDiGraph float -> node -> node -> PyResult (list node))
    (dijkstra_path_length : Nx.WDiGraph float -> node -> node -> PyResult float)
    (checkbox : node -> node -> bool) (G : DiGraph) (source target : node) :
  get_shortest_path dijkstra_path dijkstra_path_length (apply_checkboxes checkbox G)
    source target =
  get_shortest_path dijkstra_path dijkstra_path_length G source target.
Proof. unfold get_shortest_path. now rewrite weighted_apply_checkboxes. Qed.

(** ** The cursor and the vehicle marker *)

Definition cursor_in_path (path : list node) (s : Session) : Prop :=
  (0 <= vehicle_index s)%Z /\
  (path <> [] -> (vehicle_index s <= Z.of_nat (length path) - 1)%Z) /\
  (path = [] -> vehicle_index s = 0%Z).

Lemma press_cursor (path : list node) (b : Button) (s : Session) :
  cursor_in_path path s -> cursor_in_path path (press path b s).
Proof.
  intros (H0 & H1 & H2). destruct b; cbn [press].
  - unfold move_vehicle. destruct (bool_decide_reflect (path <> [])) as [Hp|Hp].
    + destruct (Z.ltb_spec (vehicle_index s) (Z.of_nat (length path) - 1)).
      * destruct (update_traffic _ _ _ _). repeat split; cbn; try lia. done.
      * repeat split; auto.
    + repeat split; auto.
  - unfold reset_vehicle. destruct (update_traffic _ _ _ _).
    repeat split; cbn; try lia. intros Hp. destruct path; [done|cbn; lia].
  - unfold recalculate. destruct (update_traffic _ _ _ _).
    repeat split; cbn; try lia. intros Hp. destruct path; [done|cbn; lia].
Qed.

Lemma presses_cursor (path : list node) (bs : list Button) : forall s : Session,
  cursor_in_path path s -> cursor_in_path path (foldl (fun s b => press path b s) s bs).
Proof.
  induction bs as [|b bs IH]; intros s H; [exact H|].
  cbn [foldl]. apply IH, press_cursor, H.
Qed.

(** X5. As long as the path stays the same, no sequence of presses of the
    three buttons takes the cursor out of the path: from a cursor at 0 the
    cursor stays between 0 and [len(path) - 1], so the vehicle marker is
    found and is a node of the path ([None] for the empty path). *)
Theorem cursor_stays_in_path (path : list node) (bs : list Button) (s : Session) :
  vehicle_index s = 0%Z ->
  let s' := foldl (fun s b => press path b s) s bs in
  (0 <= vehicle_index s')%Z /\
  match path with
  | [] => vehicle_node path (vehicle_index s') = NoVehicle
  | _ :: _ =>
      (vehicle_index s' <= Z.of_nat (length path) - 1)%Z /\
      exists n : node, n ∈ path /\ vehicle_node path (vehicle_index s') = VehicleAt n
  end.
Proof.
  intros Hs s'.
  assert (Hc : cursor_in_path path s').
  { apply presses_cursor. repeat split; try lia. intros Hp.
    destruct path; [done|cbn; lia]. }
  destruct Hc as (H0 & H1 & H2). split; [exact H0|].
  destruct path as [|x path]; [reflexivity|].
  specialize (H1 ltac:(done)). split; [exact H1|].
  unfold vehicle_node, py_getitem. rewrite bool_decide_eq_true_2 by done.
  destruct (Z.leb_spec 0 (vehicle_index s')); [|lia].
  destruct (lookup_lt_is_Some_2 (x :: path) (Z.to_nat (vehicle_index s'))) as [n Hn].
  { cbn [length] in *. lia. }
  rewrite Hn. exists n. split; [|reflexivity]. eapply list_elem_of_lookup_2, Hn.
Qed.

(** X6. The marker lookup fails with [IndexError] exactly when the path is
    not empty and the cursor is at or beyond its length, which is what a
    cursor kept from an earlier, longer path can be. *)
Theorem vehicle_node_index_error (path : list node) (vehicle_index : Z) :
  (0 <= vehicle_index)%Z ->
  (vehicle_node path vehicle_index = MarkerIndexError <->
   path <> [] /\ (Z.of_nat (length path) <= vehicle_index)%Z).
Proof.
  intros H0. unfold vehicle_node, py_getitem.
  destruct (Z.leb_spec 0 vehicle_index); [|lia].
  destruct (bool_decide_reflect (path <> [])) as [Hp|Hp].
  - destruct (path !! Z.to_nat vehicle_index) as [n|] eqn:E.
    + apply lookup_lt_Some in E. split; [discriminate|]. intros [_ Hl]. lia.
    + apply lookup_ge_None in E. split; [|reflexivity]. intros _. split; [exact Hp|lia].
  - split; [discriminate|]. intros [Hp' _]. done.
Qed.



(** ** Colours *)


(** ** The planner together with the controller *)

Section Plan.

Variable dijkstra_path : Nx.WDiGraph float -> node -> node -> PyResult (list node).
Variable dijkstra_path_length : Nx.WDiGraph float -> node -> node -> PyResult float.
Hypothesis path_ok : Nx.path_contract dijkstra_path.
Hypothesis length_ok : Nx.length_contract dijkstra_path_length.

Lemma zero_weights_well_weighted (G : DiGraph) :
  Forall (fun e : Edge => weight e.2 = 0) (edges G) -> Nx.well_weighted (weighted G).
Proof.
  intros Hz. apply well_weighted_Forall. cbn. rewrite Forall_fmap.
  eapply Forall_impl; [exact Hz|]. intros e He. cbn. rewrite He. reflexivity.
Qed.

Lemma zero_weights_edge (G : DiGraph) (u v : node) (w : float) :
  Forall (fun e : Edge => weight e.2 = 0) (edges G) ->
  Nx.edge_weight (weighted G) u v = Some w -> w = 0.
Proof.
  intros Hz Hw. apply Nx.edge_weight_elem in Hw. cbn in Hw.
  apply list_elem_of_fmap in Hw as (e & E & He). injection E as _ _ ->.
  exact (proj1 (Forall_forall _ _) Hz e He).
Qed.

Lemma zero_weights_cost (G : DiGraph) (s t : node) (p : list node) :
  Forall (fun e : Edge => weight e.2 = 0) (edges G) ->
  Nx.is_path (weighted G) s t p -> Nx.path_cost (weighted G) p = 0.
Proof.
  intros Hz. unfold Nx.path_cost. cbn [wzero float_weight].
  induction 1 as [s|s u t p w Hsu Hp IH]; [reflexivity|].
  pose proof (Nx.is_path_head _ _ _ _ Hp) as Hh.
  destruct p as [|u' p]; [discriminate|]. cbn in Hh. injection Hh as ->.
  cbn [Nx.cost_from]. rewrite Hsu. cbn [default from_option id].
  rewrite (zero_weights_edge G s u w Hz Hsu). exact IH.
Qed.

(** X8. Before the first traffic update every weight is still the 0 the
    graph was built with, so whatever the base weights are the planner
    reports cost 0 for every target that can be reached. *)
Theorem initial_plan_costs_nothing (G : DiGraph) (s t : node) :
  Forall (fun e : Edge => weight e.2 = 0) (edges G) ->
  s ∈ nodes G -> Nx.reachable (weighted G) s t ->
  exists p : list node,
    get_shortest_path dijkstra_path dijkstra_path_length G s t = Ok (p, 0) /\
    Nx.is_path (weighted G) s t p.
Proof.
  intros Hz Hs Hr.
  destruct (get_shortest_path_reachable _ _ path_ok length_ok G s t
              (zero_weights_well_weighted G Hz) Hs Hr) as (p & E & Hp & _).
  exists p. split; [|exact Hp]. rewrite E. now rewrite (zero_weights_cost G s t p Hz Hp).
Qed.

Lemma simple_loop_is_one (G : Nx.WDiGraph float) (s : node) (p : list node) :
  Nx.is_path G s s p -> NoDup p -> p = [s].
Proof.
  intros Hp Hnd. inversion Hp as [|s' u t p' w Hw Hp']; subst; [reflexivity|].
  apply NoDup_cons in Hnd as [Hnin _]. destruct Hnin.
  eapply Nx.is_path_last, Hp'.
Qed.

(** X9. When source and target are the same node the planner returns the
    one-node path with cost 0; on that path the Move button does nothing
    and the Recalculate button does what the Reset button does. *)
Theorem same_source_and_target (s : Session) (n : node) :
  Nx.well_weighted (weighted (graph s)) -> n ∈ nodes (graph s) ->
  (0 <= vehicle_index s)%Z ->
  get_shortest_path dijkstra_path dijkstra_path_length (graph s) n n = Ok ([n], 0) /\
  move_vehicle round2 [n] s = s /\
  recalculate round2 [n] s = reset_vehicle round2 s.
Proof.
  intros Hw Hn H0. split; [|split].
  - destruct (get_shortest_path_reachable _ _ path_ok length_ok (graph s) n n Hw Hn)
      as (p & E & Hp & Hnd & _); [exists [n]; constructor|].
    rewrite E. now rewrite (simple_loop_is_one _ n p Hp Hnd).
  - unfold move_vehicle. rewrite bool_decide_eq_true_2 by done.
    cbn [length]. destruct (Z.ltb_spec (vehicle_index s) (Z.of_nat 1 - 1)); [lia|reflexivity].
  - reflexivity.
Qed.

Lemma is_path_consecutive (G : Nx.WDiGraph float) (s t : node) (p : list node) :
  Nx.is_path G s t p ->
  forall (k : nat) (u v : node), p !! k = Some u -> p !! S k = Some v ->
  exists w : float, Nx.edge_weight G u v = Some w.
Proof.
  induction 1 as [s|s x t p w Hw Hp IH]; intros k u v Hu Hv.
  - destruct k; discriminate.
  - pose proof (Nx.is_path_head _ _ _ _ Hp) as Hh. destruct k as [|k].
    + cbn in Hu, Hv. injection Hu as ->. destruct p as [|x' p]; [discriminate|].
      cbn in Hh, Hv. injection Hh as ->. injection Hv as ->. eauto.
    + cbn in Hu, Hv. eapply IH; eassumption.
Qed.

Lemma weighted_edge_lookup (G : DiGraph) (u v : node) (w : float) :
  Nx.edge_weight (weighted G) u v = Some w ->
  exists (i : nat) (d : EdgeData), edges G !! i = Some (u, v, d).
Proof.
  intros Hw. apply Nx.edge_weight_elem in Hw. cbn in Hw.
  apply list_elem_of_fmap in Hw as ([[u' v'] d] & E & He). injection E as -> -> _.
  apply list_elem_of_lookup_1 in He as [i Hi]. eauto.
Qed.

(** X10. The path the planner returns runs over edges of the graph, and a
    traffic update with that path raises the congestion level of each of
    them that is open to [min(old + 0.05, 1.0)]. *)
Theorem planned_path_is_congested (G : DiGraph) (r : Rng) (s t : node) :
  Nx.well_weighted (weighted G) -> s ∈ nodes G -> Nx.reachable (weighted G) s t ->
  exists (p : list node) (c : float),
    get_shortest_path dijkstra_path dijkstra_path_length G s t = Ok (p, c) /\
    forall (k : nat) (u v : node), p !! k = Some u -> p !! S k = Some v ->
    exists (i : nat) (d : EdgeData),
      edges G !! i = Some (u, v, d) /\
      (open d = true ->
       exists d' : EdgeData,
         edges (update_traffic round2 G p r).1 !! i = Some (u, v, d') /\
         congestion_level d' = pymin (congestion_level d + 0.05) 1.0).
Proof.
  intros Hw Hs Hr.
  destruct (get_shortest_path_reachable _ _ path_ok length_ok G s t Hw Hs Hr)
    as (p & E & Hp & _).
  exists p, (Nx.path_cost (weighted G) p). split; [exact E|].
  intros k u v Hu Hv.
  destruct (is_path_consecutive _ _ _ _ Hp k u v Hu Hv) as [w Hwe].
  destruct (weighted_edge_lookup G u v w Hwe) as (i & d & Hi).
  exists i, d. split; [exact Hi|]. intros Ho.
  destruct (update_edges_lookup round2 (used_edges p) (edges G) r i u v d Hi)
    as (ri & _ & Hl).
  rewrite update_traffic_edges. eexists. split; [exact Hl|].
  unfold update_edge. rewrite Ho. cbn.
  rewrite bool_decide_eq_true_2; [reflexivity|].
  apply used_edges_spec. exists k. auto.
Qed.

(** X17. [get_shortest_path] answers with the empty path and cost
    [+infinity] exactly when the graph has no directed path from the source
    to the target at all, closed roads counted as roads: the open flags
    play no part in it. *)
Theorem sentinel_means_no_road (G : DiGraph) (s t : node) :
  Nx.well_weighted (weighted G) -> s ∈ nodes G ->
  (get_shortest_path dijkstra_path dijkstra_path_length G s t = Ok ([], infinity) <->
   ~ Nx.reachable (weighted G) s t) /\
  forall checkbox : node -> node -> bool,
    get_shortest_path dijkstra_path dijkstra_path_length G s t = Ok ([], infinity) <->
    get_shortest_path dijkstra_path dijkstra_path_length (apply_checkboxes checkbox G) s t
      = Ok ([], infinity).
Proof.
  intros Hw Hs. split.
  - apply (get_shortest_path_sentinel _ _ path_ok length_ok G s t Hw Hs).
  - intros checkbox. unfold get_shortest_path. now rewrite weighted_apply_checkboxes.
Qed.

End Plan.

(** ** The road map never changes *)

Definition edge_base (e : Edge) : node * node * Z := (e.1.1, e.1.2, base_weight e.2).

Lemma step_topology (a : Action) (st : DiGraph * Rng) :
  nodes (step round2 a st).1 = nodes st.1 /\
  edge_base <$> edges (step round2 a st).1 = edge_base <$> edges st.1.
Proof.
  destruct a as [path|u v b]; cbn [step].
  - split; [apply update_traffic_nodes|].
    rewrite update_traffic_edges.
    pose proof (update_edges_frame round2 (used_edges path) (edges st.1) st.2) as Hf.
    apply (f_equal (fmap (fun x : node * node * Z * bool => x.1))) in Hf.
    rewrite <- !list_fmap_compose in Hf. exact Hf.
  - split; [reflexivity|]. cbn. rewrite <- list_fmap_compose.
    apply list_fmap_ext. intros j [[u' v'] d'] _. cbn.
    now destruct (bool_decide _).
Qed.

(** X11. Whatever the user does - traffic updates with any paths, roads
    closed and reopened - the graph keeps the five nodes and the seven
    edges [init_graph] built, in the same order, each with the base weight
    drawn for it at the start. *)
Theorem road_map_is_fixed (randint : nat -> Z) (acts : list Action) (r : Rng) :
  nodes (run round2 acts (init_graph randint, r)).1 = ["A"; "B"; "C"; "D"; "E"] /\
  edge_base <$> edges (run round2 acts (init_graph randint, r)).1 =
    imap (fun k '(u, v) => (u, v, randint k)) init_edges.
Proof.
  change ["A"; "B"; "C"; "D"; "E"] with (nodes (init_graph randint, r).1).
  change (imap (fun k '(u, v) => (u, v, randint k)) init_edges)
    with (edge_base <$> edges (init_graph randint, r).1).
  generalize (init_graph randint, r). unfold run.
  induction acts as [|a acts IH]; intros st; [split; reflexivity|].
  cbn [foldl]. destruct (IH (step round2 a st)) as [Hn He].
  destruct (step_topology a st) as [Hn' He']. rewrite Hn, He. auto.
Qed.

End Page.

(** ** The theorems on concrete inputs *)

Lemma closed_edge_frozen_witness :
  edges (run py_round2 (ActUpdate <$> [["A"; "B"; "D"]; []]) (G1, r1)).1 !! 0%nat =
    Some ("A", "B", {| base_weight := 10; weight := infinity;
                       open := false; congestion_level := 0 |}).
Proof.
  exact (closed_edge_frozen py_round2 [["A"; "B"; "D"]; []] G1 r1 0 "A" "B"
           {| base_weight := 10; weight := 0; open := false; congestion_level := 0 |}
           eq_refl eq_refl ltac:(discriminate)).
Defined.

Lemma cursor_stays_in_path_witness :
  let s := {| graph := G0; vehicle_index := 0; rng := r1 |} in
  let s' := foldl (fun s b => press py_round2 ["A"; "C"; "E"] b s) s
              [MoveVehicle; MoveVehicle; MoveVehicle; RecalculateTraffic; MoveVehicle] in
  (0 <= vehicle_index s')%Z /\
  (vehicle_index s' <= Z.of_nat (length ["A"; "C"; "E"]) - 1)%Z /\
  exists n : node, n ∈ ["A"; "C"; "E"] /\
                   vehicle_node ["A"; "C"; "E"] (vehicle_index s') = VehicleAt n.
Proof.
  exact (cursor_stays_in_path py_round2 ["A"; "C"; "E"]
           [MoveVehicle; MoveVehicle; MoveVehicle; RecalculateTraffic; MoveVehicle]
           {| graph := G0; vehicle_index := 0; rng := r1 |} eq_refl).
Defined.

Lemma vehicle_node_index_error_witness :
  vehicle_node ["A"; "B"] 2 = MarkerIndexError <->
  ["A"; "B"] <> [] /\ (Z.of_nat (length ["A"; "B"]) <= 2)%Z.
Proof.
  apply (vehicle_node_index_error ["A"; "B"] 2). lia.
Defined.


Lemma A_reaches_E (G : DiGraph) :
  weighted G = weighted G0 -> Nx.reachable (weighted G) "A" "E".
Proof.
  intros ->. exists ["A"; "C"; "E"].
  apply (Nx.is_path_step (weighted G0) "A" "C" "E" _ 0 eq_refl).
  apply (Nx.is_path_step (weighted G0) "C" "E" "E" _ 0 eq_refl).
  constructor.
Qed.

Lemma initial_plan_costs_nothing_witness :
  exists p : list node,
    get_shortest_path Nx.ref_path Nx.ref_length G1 "A" "E" = Ok (p, 0) /\
    Nx.is_path (weighted G1) "A" "E" p.
Proof.
  apply (initial_plan_costs_nothing Nx.ref_path Nx.ref_length
           Nx.ref_path_contract Nx.ref_length_contract G1 "A" "E").
  - repeat constructor.
  - repeat constructor.
  - apply A_reaches_E. reflexivity.
Defined.

Lemma same_source_and_target_witness :
  let s := {| graph := G0; vehicle_index := 0; rng := r1 |} in
  get_shortest_path Nx.ref_path Nx.ref_length (graph s) "C" "C" = Ok (["C"], 0) /\
  move_vehicle py_round2 ["C"] s = s /\
  recalculate py_round2 ["C"] s = reset_vehicle py_round2 s.
Proof.
  apply (same_source_and_target py_round2 Nx.ref_path Nx.ref_length
           Nx.ref_path_contract Nx.ref_length_contract
           {| graph := G0; vehicle_index := 0; rng := r1 |} "C").
  - apply well_weighted_Forall. repeat constructor.
  - repeat constructor.
  - cbn. lia.
Defined.

Lemma planned_path_is_congested_witness :
  exists (p : list node) (c : float),
    get_shortest_path Nx.ref_path Nx.ref_length G0 "A" "E" = Ok (p, c) /\
    forall (k : nat) (u v : node), p !! k = Some u -> p !! S k = Some v ->
    exists (i : nat) (d : EdgeData),
      edges G0 !! i = Some (u, v, d) /\
      (open d = true ->
       exists d' : EdgeData,
         edges (update_traffic py_round2 G0 p r1).1 !! i = Some (u, v, d') /\
         congestion_level d' = pymin (congestion_level d + 0.05) 1.0).
Proof.
  apply (planned_path_is_congested py_round2 Nx.ref_path Nx.ref_length
           Nx.ref_path_contract Nx.ref_length_contract G0 r1 "A" "E").
  - apply well_weighted_Forall. repeat constructor.
  - repeat constructor.
  - apply A_reaches_E. reflexivity.
Defined.

Lemma sentinel_means_no_road_witness :
  (get_shortest_path Nx.ref_path Nx.ref_length G1 "E" "A" = Ok ([], infinity) <->
   ~ Nx.reachable (weighted G1) "E" "A") /\
  forall checkbox : node -> node -> bool,
    get_shortest_path Nx.ref_path Nx.ref_length G1 "E" "A" = Ok ([], infinity) <->
    get_shortest_path Nx.ref_path Nx.ref_length (apply_checkboxes checkbox G1) "E" "A"
      = Ok ([], infinity).
Proof.
  apply (sentinel_means_no_road Nx.ref_path Nx.ref_length
           Nx.ref_path_contract Nx.ref_length_contract G1 "E" "A").
  - apply well_weighted_Forall. repeat constructor.
  - repeat constructor.
Defined.


End MainPage.

From stdpp Require Import pretty.

(** * [src/trial1.py]: what the page shows *)
Module Trial1Page.
Import Trial1.

#[local] Open Scope string_scope.
#[local] Open Scope list_scope.
#[local] Open Scope Z_scope.

(** ** Definitions *)

(** The node labels of [visualize_plotly]: the node, then its distance, or
    the sign for infinity when [path_lengths] has no entry for it. *)
Definition node_text (graph : Nx.WDiGraph Z) (path_lengths : gmap node Z) : list string :=
  (fun node : node =>
     let dist := match path_lengths !! node with
                 | Some d => pretty d
                 | None => "∞"
                 end in
     node +:+ " (Dist: " +:+ dist +:+ ")") <$> Nx.wnodes graph.


Section Page.

Variable single_source_dijkstra_path_length :
  Nx.WDiGraph Z -> node -> PyResult (gmap node Z).
Variable single_source_bellman_ford_path_length :
  Nx.WDiGraph Z -> node -> PyResult (gmap node Z).


Abbreviation run := (run_simulation single_source_dijkstra_path_length
                       single_source_bellman_ford_path_length).

(** ** Errors of the library *)


(** ** The algorithm makes no difference *)


(** ** The distances in the table *)

Lemma cost_from_cons (G : Nx.WDiGraph Z) (acc : Z) (u v : node) (p : list node) :
  Nx.cost_from G acc (u :: v :: p) =
  Nx.cost_from G (acc + default 0 (Nx.edge_weight G u v)) (v :: p).
Proof. reflexivity. Qed.

Lemma cost_from_acc (G : Nx.WDiGraph Z) (p : list node) : forall acc : Z,
  Nx.cost_from G acc p = acc + Nx.cost_from G 0 p.
Proof.
  induction p as [|u p IH]; intros acc; [cbn; lia|].
  destruct p as [|v p]; [cbn; lia|].
  rewrite !cost_from_cons. rewrite (IH (acc + _)), (IH (0 + _)). lia.
Qed.

Lemma path_cost_step (G : Nx.WDiGraph Z) (s u : node) (p : list node) (w : Z) :
  Nx.edge_weight G s u = Some w ->
  Nx.path_cost G (s :: u :: p) = w + Nx.path_cost G (u :: p).
Proof.
  intros Hw. unfold Nx.path_cost. change (@wzero Z _) with 0.
  rewrite cost_from_cons, Hw. cbn [default from_option id]. apply cost_from_acc.
Qed.

Lemma path_cost_nonneg (G : Nx.WDiGraph Z) (s t : node) (p : list node) :
  Nx.well_weighted G -> Nx.is_path G s t p -> 0 <= Nx.path_cost G p.
Proof.
  intros HG. induction 1 as [s|s u t p w Hw Hp IH]; [cbn; lia|].
  pose proof (Nx.is_path_head _ _ _ _ Hp) as Hh.
  destruct p as [|u' p]; [discriminate|]. cbn in Hh. injection Hh as ->.
  rewrite (path_cost_step G s u p w Hw).
  pose proof (HG (s, u, w) (Nx.edge_weight_elem G s u w Hw)) as H0. cbn in H0. lia.
Qed.

Lemma simple_loop (G : Nx.WDiGraph Z) (s : node) (p : list node) :
  Nx.is_path G s s p -> NoDup p -> p = [s].
Proof.
  intros Hp Hnd. inversion Hp as [|s' u t p' w Hw Hp']; subst; [reflexivity|].
  apply NoDup_cons in Hnd as [Hnin _]. destruct Hnin.
  eapply Nx.is_path_last, Hp'.
Qed.

Lemma shortest_dist_source (G : Nx.WDiGraph Z) (s : node) : Nx.shortest_dist G s s 0.
Proof.
  exists [s]. split; [|reflexivity]. split; [constructor|]. split; [apply NoDup_singleton|].
  intros q Hq Hnd. rewrite (simple_loop G s q Hq Hnd). reflexivity.
Qed.

Lemma shortest_dist_le (G : Nx.WDiGraph Z) (s t : node) (d : Z) (q : list node) :
  Nx.shortest_dist G s t d -> Nx.is_path G s t q -> NoDup q -> d <= Nx.path_cost G q.
Proof.
  intros (p & (Hp & Hnd & Hmin) & <-) Hq Hqnd.
  specialize (Hmin q Hq Hqnd). cbn in Hmin. now apply Z.ltb_ge in Hmin.
Qed.

Lemma reachable_shortest_dist (G : Nx.WDiGraph Z) (s t : node) :
  Nx.reachable G s t <-> exists d : Z, Nx.shortest_dist G s t d.
Proof.
  split.
  - intros Hr. destruct (Nx.search_reachable G s t Hr) as (p & _ & Hp).
    exists (Nx.path_cost G p), p. auto.
  - intros (d & p & (Hp & _) & _). now exists p.
Qed.

Lemma is_path_snoc (G : Nx.WDiGraph Z) (s u v : node) (p : list node) (w : Z) :
  Nx.is_path G s u p -> Nx.edge_weight G u v = Some w ->
  Nx.is_path G s v (p ++ [v]) /\ Nx.path_cost G (p ++ [v]) = Nx.path_cost G p + w.
Proof.
  intros Hp Hw. induction Hp as [s|s x t p w0 Hw0 Hp IH].
  - split; [econstructor; [exact Hw|constructor]|].
    cbn. unfold Nx.path_cost. cbn. now rewrite Hw.
  - destruct (IH Hw) as [IH1 IH2]. split; [econstructor; eassumption|].
    pose proof (Nx.is_path_head _ _ _ _ Hp) as Hh.
    destruct p as [|x' p]; [discriminate|]. cbn in Hh. injection Hh as ->.
    cbn [app]. rewrite !(path_cost_step G s x _ w0 Hw0). cbn [app] in IH2. lia.
Qed.

(** The part of a path up to a node on it. *)
Lemma is_path_prefix (G : Nx.WDiGraph Z) (s t v : node) (p : list node) :
  Nx.well_weighted G -> Nx.is_path G s t p -> v ∈ p ->
  exists p1 p2 : list node,
    p = p1 ++ p2 /\ Nx.is_path G s v p1 /\ Nx.path_cost G p1 <= Nx.path_cost G p.
Proof.
  intros HG Hp. induction Hp as [s|s x t p w0 Hw0 Hp IH]; intros Hv.
  - apply list_elem_of_singleton in Hv as ->. exists [s], []. split; [reflexivity|].
    split; [constructor|lia].
  - destruct (decide (v = s)) as [->|Hne].
    + exists [s], p. split; [reflexivity|]. split; [constructor|].
      apply (path_cost_nonneg G s t (s :: p) HG). econstructor; eassumption.
    + apply elem_of_cons in Hv as [?|Hv]; [done|].
      destruct (IH Hv) as (p1 & p2 & -> & Hp1 & Hc).
      exists (s :: p1), p2. split; [reflexivity|]. split; [econstructor; eassumption|].
      pose proof (Nx.is_path_head _ _ _ _ Hp1) as Hh.
      destruct p1 as [|x' p1]; [discriminate|]. cbn in Hh. injection Hh as ->.
      cbn [app] in *. rewrite !(path_cost_step G s x _ w0 Hw0). lia.
Qed.

(** Distances that meet the contract respect the edges. *)
Lemma contract_relaxed (G : Nx.WDiGraph Z) (s u v : node) (du w : Z) :
  Nx.well_weighted G ->
  Nx.shortest_dist G s u du -> Nx.edge_weight G u v = Some w ->
  exists dv : Z, Nx.shortest_dist G s v dv /\ dv <= du + w.
Proof.
  intros HG Hu Hw. pose proof Hu as (p & (Hp & Hnd & Hmin) & Hc).
  pose proof (HG (u, v, w) (Nx.edge_weight_elem G u v w Hw)) as Hw0. cbn in Hw0.
  destruct (decide (v ∈ p)) as [Hin|Hnin].
  - destruct (is_path_prefix G s u v p HG Hp Hin) as (p1 & p2 & -> & Hp1 & Hle).
    destruct (proj1 (reachable_shortest_dist G s v)) as [dv Hdv]; [now exists p1|].
    exists dv. split; [exact Hdv|].
    pose proof (shortest_dist_le G s v dv p1 Hdv Hp1) as Hd.
    apply NoDup_app in Hnd as (Hnd1 & _ & _). specialize (Hd Hnd1). lia.
  - destruct (is_path_snoc G s u v p w Hp Hw) as [Hq Hcq].
    destruct (proj1 (reachable_shortest_dist G s v)) as [dv Hdv]; [now exists (p ++ [v])|].
    exists dv. split; [exact Hdv|].
    assert (Hqnd : NoDup (p ++ [v])).
    { apply NoDup_app. split; [exact Hnd|]. split; [|apply NoDup_singleton].
      intros x Hx Hx'. apply list_elem_of_singleton in Hx' as ->. done. }
    pose proof (shortest_dist_le G s v dv _ Hdv Hq Hqnd). lia.
Qed.

(** X14. On a graph with non-negative weights and with a library function
    that meets its contract, the mapping [dijkstra] returns gives the source
    distance 0 and no node a negative distance. *)
Theorem source_at_distance_zero (G : Nx.WDiGraph Z) (source : node) :
  Nx.lengths_contract single_source_dijkstra_path_length ->
  Nx.well_weighted G -> source ∈ Nx.wnodes G ->
  (dijkstra single_source_dijkstra_path_length G source).1 !! source = Some 0 /\
  forall (t : node) (d : Z),
    (dijkstra single_source_dijkstra_path_length G source).1 !! t = Some d -> 0 <= d.
Proof.
  intros Hd HG Hs. destruct (Hd G source HG Hs) as (m & E & Hm).
  unfold dijkstra. rewrite E. cbn [fst]. split.
  - apply Hm, shortest_dist_source.
  - intros t d Ht. apply Hm in Ht as (p & (Hp & _) & <-).
    eapply path_cost_nonneg; eassumption.
Qed.

(** X15. The distances respect the edges: if [u] has distance [du] and
    there is an edge from [u] to [v] of weight [w], then [v] has a distance
    too, and it is at most [du + w]. *)
Theorem distances_respect_edges (G : Nx.WDiGraph Z) (source u v : node) (du w : Z) :
  Nx.lengths_contract single_source_dijkstra_path_length ->
  Nx.well_weighted G -> source ∈ Nx.wnodes G ->
  (dijkstra single_source_dijkstra_path_length G source).1 !! u = Some du ->
  Nx.edge_weight G u v = Some w ->
  exists dv : Z,
    (dijkstra single_source_dijkstra_path_length G source).1 !! v = Some dv /\
    dv <= du + w.
Proof.
  intros Hd HG Hs. destruct (Hd G source HG Hs) as (m & E & Hm).
  unfold dijkstra. rewrite E. cbn [fst]. intros Hu Hw.
  destruct (contract_relaxed G source u v du w HG (proj1 (Hm u du) Hu) Hw) as (dv & Hdv & Hle).
  exists dv. split; [now apply Hm | exact Hle].
Qed.

(** X16. A node has an entry in the mapping exactly when it can be reached
    from the source, so the chart labels a node that can be reached with
    its shortest distance and every other node with the sign for
    infinity. *)
Theorem labels_show_reachability (G : Nx.WDiGraph Z) (source : node) :
  Nx.lengths_contract single_source_dijkstra_path_length ->
  Nx.well_weighted G -> source ∈ Nx.wnodes G ->
  let path_lengths := (dijkstra single_source_dijkstra_path_length G source).1 in
  (forall t : node, is_Some (path_lengths !! t) <-> Nx.reachable G source t) /\
  forall (k : nat) (n : node), Nx.wnodes G !! k = Some n ->
    (Nx.reachable G source n ->
     exists d : Z, Nx.shortest_dist G source n d /\
       node_text G path_lengths !! k = Some (n +:+ " (Dist: " +:+ pretty d +:+ ")")) /\
    (~ Nx.reachable G source n ->
     node_text G path_lengths !! k = Some (n +:+ " (Dist: ∞)")).
Proof.
  intros Hd HG Hs. destruct (Hd G source HG Hs) as (m & E & Hm).
  unfold dijkstra. rewrite E. cbn [fst].
  assert (Hdom : forall t : node, is_Some (m !! t) <-> Nx.reachable G source t).
  { intros t. rewrite reachable_shortest_dist. split.
    - intros [d Ht]. exists d. now apply Hm.
    - intros [d Ht]. exists d. now apply Hm. }
  split; [exact Hdom|]. intros k n Hk. unfold node_text.
  rewrite list_lookup_fmap, Hk. cbn. split.
  - intros Hr. apply Hdom in Hr as [d Ht]. exists d. split; [now apply Hm|].
    now rewrite Ht.
  - intros Hn. destruct (m !! n) as [d|] eqn:Ht; [|reflexivity].
    destruct Hn. apply Hdom. eauto.
Qed.

End Page.

(** ** The theorems on concrete inputs *)

Definition G3 : Nx.WDiGraph Z := generate_graph (fun _ => 3).

Lemma G3_well_weighted : Nx.well_weighted G3.
Proof. apply generate_graph_well_weighted. intros _. lia. Qed.



Lemma source_at_distance_zero_witness :
  (dijkstra Nx.ref_lengths G3 "A").1 !! "A" = Some 0 /\
  forall (t : node) (d : Z), (dijkstra Nx.ref_lengths G3 "A").1 !! t = Some d -> 0 <= d.
Proof.
  apply (source_at_distance_zero Nx.ref_lengths G3 "A" Nx.ref_lengths_contract
           G3_well_weighted).
  repeat constructor.
Defined.

Lemma distances_respect_edges_witness :
  exists dv : Z, (dijkstra Nx.ref_lengths G3 "A").1 !! "B" = Some dv /\ dv <= 0 + 3.
Proof.
  apply (distances_respect_edges Nx.ref_lengths G3 "A" "A" "B" 0 3
           Nx.ref_lengths_contract G3_well_weighted).
  - repeat constructor.
  - vm_compute. reflexivity.
  - reflexivity.
Defined.

Lemma labels_show_reachability_witness :
  let path_lengths := (dijkstra Nx.ref_lengths G3 "D").1 in
  (forall t : node, is_Some (path_lengths !! t) <-> Nx.reachable G3 "D" t) /\
  forall (k : nat) (n : node), Nx.wnodes G3 !! k = Some n ->
    (Nx.reachable G3 "D" n ->
     exists d : Z, Nx.shortest_dist G3 "D" n d /\
       node_text G3 path_lengths !! k = Some (n +:+ " (Dist: " +:+ pretty d +:+ ")")) /\
    (~ Nx.reachable G3 "D" n ->
     node_text G3 path_lengths !! k = Some (n +:+ " (Dist: ∞)")).
Proof.
  apply (labels_show_reachability Nx.ref_lengths G3 "D" Nx.ref_lengths_contract
           G3_well_weighted).
  repeat constructor.
Defined.

(** The labels of the chart for source D when every weight is 3. *)
Example node_text_from_D :
  node_text G3 (dijkstra Nx.ref_lengths G3 "D").1 =
    ["A (Dist: ∞)"; "B (Dist: ∞)"; "C (Dist: ∞)"; "D (Dist: 0)"; "E (Dist: 3)"].
Proof. vm_compute. reflexivity. Qed.

End Trial1Page.
